(** * blurUvWrap: the UV point-location sweep and its nearest-edge fallback

    A shallow embedding of [src/uvQuery.cpp]: [argsort], [sweep],
    [closestBruteForceEdge] and [handleMissing].

    Conventions of the embedding.
    - A [std::vector<T>] is a [list T]; [v[i]] is the lookup [v !! i], and an
      index outside the vector is a fault of the run (the C++ access has no
      defined result), never a silent default.
    - [size_t] cursors and indices are [nat]: every one of them is bounded by
      the length of a vector.  The one index expression that wraps, the
      literal [-1] of line 101, is kept as the 64-bit number it converts to.
    - [double] is an abstract number type [F] with the operations the code
      uses ([Float64]); the control-flow results hold for every
      interpretation of them.  Concrete runs use exact rationals, on inputs
      where every intermediate value is a small dyadic number, so that the
      exact result and the rounded one coincide.
    - [pointInTri] lives in [uvMath.h], outside the source at hand, and is a
      parameter of the sweep. *)

From stdpp Require Import base list sorting gmap.
From Stdlib Require Import QArith.
Local Open Scope nat_scope.

(** ** Numbers *)

Class Float64 (F : Type) := {
  fadd : F → F → F;
  fsub : F → F → F;
  fmul : F → F → F;
  fdiv : F → F → F;
  flt : F → F → bool;            (* a < b  *)
  fle : F → F → bool;            (* a <= b *)
  fzero : F;                     (* 0.0 *)
  fone : F;                      (* 1.0 *)
  fdbl_max : F                   (* std::numeric_limits<double>::max() *)
}.

(** [std::min] and [std::max] as <algorithm> defines them from [<]. *)
Definition fmin `{Float64 F} (a b : F) : F := if flt b a then b else a.
Definition fmax `{Float64 F} (a b : F) : F := if flt a b then b else a.

(** The order laws of [double] away from NaN: [<=] is a total preorder and
    [<] is what is left of it. *)
Class FloatOrder (F : Type) `{Float64 F} : Prop := {
  fle_total : ∀ x y, fle x y = true ∨ fle y x = true;
  fle_trans : ∀ x y z, fle x y = true → fle y z = true → fle x z = true;
  flt_not_fle : ∀ x y, flt x y = negb (fle y x)
}.

(** The comparator laws [std::stable_sort] asks of its ordering. *)
Class StrictWeakOrder {T : Type} (lt : T → T → bool) : Prop := {
  swo_irrefl : ∀ x, lt x x = false;
  swo_trans : ∀ x y z, lt x y = true → lt y z = true → lt x z = true;
  swo_equiv_trans : ∀ x y z,
    lt x y = false → lt y x = false →
    lt y z = false → lt z y = false →
    lt x z = false ∧ lt z x = false
}.

(** ** argsort (lines 19-33) *)

(** [std::stable_sort] is the C++ library's.  Its contract leaves one result
    for a strict weak order: the elements in non-descending order, those
    that compare equivalent in their input order.  The model inserts from
    the right, each element in front of the first one that is not smaller. *)
Fixpoint stable_insert {A : Type} (comp : A → A → bool) (x : A) (l : list A)
  : list A :=
  match l with
  | [] => [x]
  | y :: ys => if comp y x then y :: stable_insert comp x ys else x :: y :: ys
  end.

Definition stable_sort {A : Type} (comp : A → A → bool) (l : list A) : list A :=
  foldr (stable_insert comp) [] l.

(** The lambda [[&v](size_t i1, size_t i2) {return v[i1] < v[i2];}]. *)
Definition key_less {T : Type} (lt : T → T → bool) (v : list T) (i1 i2 : nat)
  : bool :=
  match v !! i1, v !! i2 with
  | Some a, Some b => lt a b
  | _, _ => false
  end.

Definition argsort {T : Type} (lt : T → T → bool) (v : list T) : list nat :=
  let ret := seq 0 (length v) in       (* iota(ret.begin(), ret.end(), 0) *)
  stable_sort (key_less lt v) ret.

(** ** Faults and the error monad *)

(** Where an access outside a vector happened. *)
Inductive fault : Set :=
  | OobBox          (* lines 53-56: uvs[tris[a]] ... *)
  | OobSetup        (* lines 68-73: the first element of a permutation *)
  | OobXminCursor   (* lines 90, 97, 98 *)
  | OobSentinel     (* line 101 *)
  | OobFlags        (* lines 91, 133: activeTris[...], skip[...] *)
  | OobQuery        (* line 106: qPoints[qpIdx] *)
  | OobScan         (* lines 111, 112 *)
  | OobQueryCursor  (* lines 127, 128 *)
  | OobXmaxCursor   (* lines 132, 140, 141 *)
  | OobEdge         (* lines 163, 164, 168 *)
  | OobBorder       (* lines 210, 211 *)
  | OobMissing      (* lines 220, 222, 223 *)
.

Inductive result (A : Type) : Type :=
  | Ok (a : A)
  | Err (f : fault).
Arguments Ok {A} a.
Arguments Err {A} f.

Definition result_bind {A B} (m : result A) (k : A → result B) : result B :=
  match m with
  | Ok a => k a
  | Err f => Err f
  end.

Notation "x ←! m ; k" := (result_bind m (λ x, k))
  (at level 20, m at level 100, k at level 200, only parsing).
Notation "' p ←! m ; k" := (result_bind m (λ x, match x with p => k end))
  (at level 20, p pattern, m at level 100, k at level 200, only parsing).

(** How a run of the loop ends. *)
Inductive ending (A : Type) : Type :=
  | Returned (a : A)
  | Faulted (f : fault)
  | OutOfFuel.
Arguments Returned {A} a.
Arguments Faulted {A} f.
Arguments OutOfFuel {A}.

(** [v[i]] *)
Definition rd {A} (f : fault) (v : list A) (i : nat) : result A :=
  match v !! i with
  | Some x => Ok x
  | None => Err f
  end.

Fixpoint mapR {A B} (f : A → result B) (l : list A) : result (list B) :=
  match l with
  | [] => Ok []
  | x :: l' => y ←! f x; ys ←! mapR f l'; Ok (y :: ys)
  end.

(** The index expression [-1] converted to [size_t], and a load at a
    64-bit index. *)
Definition size_t_neg1 : N := (2 ^ 64 - 1)%N.

Definition rdN {A} (v : list A) (i : N) : option A :=
  if (i <? N.of_nat (length v))%N then v !! N.to_nat i else None.

(** [uv_t]: a pair of doubles, [uv[0]] and [uv[1]]. *)
Definition uv_t (F : Type) : Type := F * F.

(** ** sweep (lines 37-145) *)

Section Sweep.
Context {F : Type} `{Float64 F}.

(** The predicate of [uvMath.h]: the query point, then the three corners. *)
Variable pointInTri : uv_t F → uv_t F → uv_t F → uv_t F → bool.

(** Line 101 loads [xmxs[mxSIdxs[-1]]]; [mxSIdxs[-1]] lies outside the
    vector.  [wild] is what that load delivers: [None] when the access is
    trapped, [Some w] when it hands back the number [w] it finds there. *)
Variable wild : option F.

Variable qPoints : list (uv_t F).     (* the UV query points *)
Variable uvs : list (uv_t F).         (* the triangulated UV's *)
Variable tris : list nat.             (* the flattened triangle indexes *)

Definition numTris : nat := length tris / 3.

Record box := { xmn : F; ymn : F; xmx : F; ymx : F }.

(** [uvs[tris[k]]] *)
Definition corner (f : fault) (k : nat) : result (uv_t F) :=
  i ←! rd f tris k; rd f uvs i.

(** One round of the loop of lines 51-57. *)
Definition bbox (i : nat) : result box :=
  let a := 3 * i in
  p0 ←! corner OobBox a;
  p1 ←! corner OobBox (a + 1);
  p2 ←! corner OobBox (a + 2);
  Ok {| xmn := fmin p0.1 (fmin p1.1 p2.1);
        ymn := fmin p0.2 (fmin p1.2 p2.2);
        xmx := fmax p0.1 (fmax p1.1 p2.1);
        ymx := fmax p0.2 (fmax p1.2 p2.2) |}.

(** What the call fixes before the loop starts. *)
Record env := {
  xmns : list F; ymns : list F; xmxs : list F; ymxs : list F;
  qpx : list F;
  qpSIdxs : list nat; mxSIdxs : list nat; mnSIdxs : list nat;
  skip : list bool
}.

(** What the loop changes. *)
Record state := {
  qpSIdx : nat; mxSIdx : nat; mnSIdx : nat;
  qpIdx : nat; mxIdx : nat; mnIdx : nat;
  qp : F; mx : F; mn : F;
  out : list nat;
  missing : list nat;
  activeTris : list bool;
  atSet : gset nat
}.

Definition set_active (s : state) (flags : list bool) (act : gset nat) : state :=
  {| qpSIdx := qpSIdx s; mxSIdx := mxSIdx s; mnSIdx := mnSIdx s;
     qpIdx := qpIdx s; mxIdx := mxIdx s; mnIdx := mnIdx s;
     qp := qp s; mx := mx s; mn := mn s;
     out := out s; missing := missing s;
     activeTris := flags; atSet := act |}.

Definition set_xmin (s : state) (i idx : nat) (x : F) : state :=
  {| qpSIdx := qpSIdx s; mxSIdx := mxSIdx s; mnSIdx := i;
     qpIdx := qpIdx s; mxIdx := mxIdx s; mnIdx := idx;
     qp := qp s; mx := mx s; mn := x;
     out := out s; missing := missing s;
     activeTris := activeTris s; atSet := atSet s |}.

Definition set_xmax (s : state) (i idx : nat) (x : F) : state :=
  {| qpSIdx := qpSIdx s; mxSIdx := i; mnSIdx := mnSIdx s;
     qpIdx := qpIdx s; mxIdx := idx; mnIdx := mnIdx s;
     qp := qp s; mx := x; mn := mn s;
     out := out s; missing := missing s;
     activeTris := activeTris s; atSet := atSet s |}.

Definition set_query (s : state) (i idx : nat) (x : F) : state :=
  {| qpSIdx := i; mxSIdx := mxSIdx s; mnSIdx := mnSIdx s;
     qpIdx := idx; mxIdx := mxIdx s; mnIdx := mnIdx s;
     qp := x; mx := mx s; mn := mn s;
     out := out s; missing := missing s;
     activeTris := activeTris s; atSet := atSet s |}.

Definition set_results (s : state) (o m : list nat) : state :=
  {| qpSIdx := qpSIdx s; mxSIdx := mxSIdx s; mnSIdx := mnSIdx s;
     qpIdx := qpIdx s; mxIdx := mxIdx s; mnIdx := mnIdx s;
     qp := qp s; mx := mx s; mn := mn s;
     out := o; missing := m;
     activeTris := activeTris s; atSet := atSet s |}.

(** Lines 47-86.  [out0] and [missing0] are the vectors the caller hands
    in by reference; [resize] keeps what fits of them and fills with 0. *)
Definition sweep_init (out0 missing0 : list nat) : result (env * state) :=
  bs ←! mapR bbox (seq 0 numTris);
  let xmns := xmn <$> bs in
  let ymns := ymn <$> bs in
  let xmxs := xmx <$> bs in
  let ymxs := ymx <$> bs in
  let qpx := fst <$> uvs in                        (* lines 59-62 *)
  let qpSIdxs := argsort flt qpx in
  let mxSIdxs := argsort flt xmxs in
  let mnSIdxs := argsort flt xmns in
  qpIdx ←! rd OobSetup qpSIdxs 0;
  mxIdx ←! rd OobSetup mxSIdxs 0;
  mnIdx ←! rd OobSetup mnSIdxs 0;
  qp ←! rd OobSetup qpx qpIdx;
  mx ←! rd OobSetup xmxs mxIdx;
  mn ←! rd OobSetup xmns mnIdx;
  let out := resize (length qPoints) 0 out0 in          (* line 75 *)
  let missing := resize (length qPoints) 0 missing0 in  (* line 76 *)
  let skip := (λ x, flt x qp) <$> xmxs in               (* qp > xmxs[i] *)
  Ok ({| xmns := xmns; ymns := ymns; xmxs := xmxs; ymxs := ymxs;
         qpx := qpx;
         qpSIdxs := qpSIdxs; mxSIdxs := mxSIdxs; mnSIdxs := mnSIdxs;
         skip := skip |},
      {| qpSIdx := 0; mxSIdx := 0; mnSIdx := 0;
         qpIdx := qpIdx; mxIdx := mxIdx; mnIdx := mnIdx;
         qp := qp; mx := mx; mn := mn;
         out := out; missing := missing;
         activeTris := replicate numTris false; atSet := ∅ |}).

(** The load of line 101. *)
Definition sentinel_load (e : env) : result F :=
  match rdN (mxSIdxs e) size_t_neg1 with
  | Some j => rd OobSentinel (xmxs e) j
  | None =>
      match wild with
      | Some w => Ok w
      | None => Err OobSentinel
      end
  end.

(** Lines 90-102. *)
Definition activate (e : env) (s : state) : result state :=
  aTriIdx ←! rd OobXminCursor (mnSIdxs e) (mnSIdx s);
  act ←! rd OobFlags (activeTris s) aTriIdx;
  sk ←! (if act then Ok false else rd OobFlags (skip e) aTriIdx);
  let s1 :=
    if negb act && negb sk
    then set_active s (<[aTriIdx := true]> (activeTris s))
                      ({[aTriIdx]} ∪ atSet s)
    else s in
  let i := S (mnSIdx s1) in
  if decide (i ≠ numTris) then
    idx ←! rd OobXminCursor (mnSIdxs e) i;
    x ←! rd OobXminCursor (xmns e) idx;
    Ok (set_xmin s1 i idx x)
  else
    w ←! sentinel_load e;
    Ok (set_xmin s1 i (mnIdx s1) (fadd w fone)).

(** Lines 111-112 for one triangle [t] of the active set. *)
Definition hit (e : env) (qPoint : uv_t F) (t : nat) : result bool :=
  let yv := qPoint.2 in
  lo ←! rd OobScan (ymns e) t;
  if fle lo yv then
    hi ←! rd OobScan (ymxs e) t;
    if fle yv hi then
      a ←! corner OobScan (3 * t);
      b ←! corner OobScan (3 * t + 1);
      c ←! corner OobScan (3 * t + 2);
      Ok (pointInTri qPoint a b c)
    else Ok false
  else Ok false.

(** The loop of lines 110-118: the first triangle that hits. *)
Fixpoint scan (e : env) (qPoint : uv_t F) (ts : list nat) : result (option nat) :=
  match ts with
  | [] => Ok None
  | t :: ts' =>
      h ←! hit e qPoint t;
      if h then Ok (Some t) else scan e qPoint ts'
  end.

Inductive status := Continue (s : state) | Break (s : state).

(** Lines 105-128.  The set is walked in the order [elements] lists it,
    one order among those [std::unordered_set] may take; which triangle is
    recorded when several of the set contain the point depends on it, and
    the results below use membership only.  The write of line 113 is in
    range whenever the load of line 106 was. *)
Definition test (e : env) (s : state) : result status :=
  qPoint ←! rd OobQuery qPoints (qpIdx s);
  found ←! scan e qPoint (elements (atSet s));
  let s1 :=
    match found with
    | Some t => set_results s (<[qpIdx s := t]> (out s)) (missing s)
    | None => set_results s (out s) (missing s ++ [qpIdx s])
    end in
  let i := S (qpSIdx s1) in
  if decide (i = length (qpSIdxs e)) then
    Ok (Break (set_query s1 i (qpIdx s1) (qp s1)))
  else
    idx ←! rd OobQueryCursor (qpSIdxs e) i;
    x ←! rd OobQueryCursor (qpx e) idx;
    Ok (Continue (set_query s1 i idx x)).

(** Lines 131-142. *)
Definition deactivate (e : env) (s : state) : result state :=
  aTriIdx ←! rd OobXmaxCursor (mxSIdxs e) (mxSIdx s);
  act ←! rd OobFlags (activeTris s) aTriIdx;
  sk ←! (if act then rd OobFlags (skip e) aTriIdx else Ok false);
  let s1 :=
    if act && negb sk
    then set_active s (<[aTriIdx := false]> (activeTris s))
                      (atSet s ∖ {[aTriIdx]})
    else s in
  let i := S (mxSIdx s1) in
  if decide (i ≠ length (mxSIdxs e)) then
    idx ←! rd OobXmaxCursor (mxSIdxs e) i;
    x ←! rd OobXmaxCursor (xmxs e) idx;
    Ok (set_xmax s1 i idx x)
  else
    Ok (set_xmax s1 i (mxIdx s1) (mx s1)).

Inductive action := Activate | Test | Deactivate.

(** The choice of lines 89, 104 and 130. *)
Definition choose (s : state) : action :=
  if fle (mn s) (mx s) && fle (mn s) (qp s) then Activate
  else if fle (qp s) (mx s) then Test
  else Deactivate.

(** One round of [while (true)]. *)
Definition step (e : env) (s : state) : result status :=
  match choose s with
  | Activate => s' ←! activate e s; Ok (Continue s')
  | Test => test e s
  | Deactivate => s' ←! deactivate e s; Ok (Continue s')
  end.

Fixpoint run (fuel : nat) (e : env) (s : state) : ending state :=
  match fuel with
  | 0 => OutOfFuel
  | S fuel' =>
      match step e s with
      | Err f => Faulted f
      | Ok (Break s') => Returned s'
      | Ok (Continue s') => run fuel' e s'
      end
  end.

(** Rounds after which every run has stopped ([run_stops]). *)
Definition sweep_fuel : nat := 2 * numTris + length uvs + 1.

(** The call: [out], [missing] and [barys] on return.  The body never
    mentions [barys]. *)
Definition sweep (out0 missing0 : list nat) (barys0 : list (uv_t F))
  : ending (list nat * list nat * list (uv_t F)) :=
  match sweep_init out0 missing0 with
  | Err f => Faulted f
  | Ok (e, s) =>
      match run sweep_fuel e s with
      | Returned s' => Returned (out s', missing s', barys0)
      | Faulted f => Faulted f
      | OutOfFuel => OutOfFuel
      end
  end.
End Sweep.

Arguments box F : clear implicits.
Arguments env F : clear implicits.
Arguments state F : clear implicits.
Arguments status F : clear implicits.

(** ** closestBruteForceEdge (lines 148-186) and handleMissing (lines 190-225) *)

Section Fallback.
Context {F : Type} `{Float64 F}.

Definition edge_t : Type := nat * nat.

(** Lines 166-178: the squared distance the loop computes for one edge
    with start [aa], direction [dd] and divisor [r2]. *)
Definition edge_l2 (aa dd : uv_t F) (r2 : F) (pt : uv_t F) : F :=
  let lerp :=
    fdiv (fadd (fmul (fsub pt.1 aa.1) dd.1) (fmul (fsub pt.2 aa.2) dd.2)) r2 in
  let lerp :=
    if flt lerp fzero then fzero else if flt fone lerp then fone else lerp in
  let c0 := fsub (fadd (fmul dd.1 lerp) aa.1) pt.1 in
  let c1 := fsub (fadd (fmul dd.2 lerp) aa.2) pt.2 in
  fadd (fmul c0 c0) (fmul c1 c1).

(** One round of the loop of line 162, on [(minIdx, minVal)].  [minIdx] is
    a [double] in the source; an index below 2^53 goes through it
    unchanged. *)
Definition closest_round (a d : list (uv_t F)) (dr2 : list F)
    (pt : uv_t F) (acc : result (nat * F)) (i : nat) : result (nat * F) :=
  '(minIdx, minVal) ←! acc;
  aa ←! rd OobEdge a i;
  dd ←! rd OobEdge d i;
  r2 ←! rd OobEdge dr2 i;
  let l2 := edge_l2 aa dd r2 pt in
  Ok (if flt l2 minVal then (i, l2) else (minIdx, minVal)).

Definition closest_scan (a d : list (uv_t F)) (dr2 : list F)
    (pt : uv_t F) : result (nat * F) :=
  foldl (closest_round a d dr2 pt) (Ok (0, fdbl_max)) (seq 0 (length a)).

Definition closestBruteForceEdge (a d : list (uv_t F)) (dr2 : list F)
    (pt : uv_t F) : result nat :=
  '(minIdx, _) ←! closest_scan a d dr2 pt; Ok minIdx.

(** One round of the loop of lines 209-217: [(uv1, diff, delta * delta)]. *)
Definition border_row (uvs : list (uv_t F)) (b : edge_t)
  : result (uv_t F * uv_t F * F) :=
  uv1 ←! rd OobBorder uvs b.1;
  uv2 ←! rd OobBorder uvs b.2;
  let diff := (fsub uv2.1 uv1.1, fsub uv2.2 uv1.2) in
  let delta := fsub diff.2 diff.1 in
  Ok (uv1, diff, fmul delta delta).

(** One round of the loop of lines 219-224. *)
Definition missing_round (uvs starts bDiff : list (uv_t F))
    (bLens2 : list F) (borderToTri : list nat)
    (acc : result (list nat)) (mIdx : nat) : result (list nat) :=
  triIdxs ←! acc;
  mp ←! rd OobMissing uvs mIdx;
  closestEdge ←! closestBruteForceEdge starts bDiff bLens2 mp;
  triIdx ←! rd OobMissing borderToTri closestEdge;
  if decide (mIdx < length triIdxs)
  then Ok (<[mIdx := triIdx]> triIdxs)
  else Err OobMissing.

Definition handleMissing (uvs : list (uv_t F)) (borders : list edge_t)
    (missing borderToTri triIdxs : list nat) : result (list nat) :=
  rows ←! mapR (border_row uvs) borders;
  let starts := (λ r, r.1.1) <$> rows in
  let bDiff := (λ r, r.1.2) <$> rows in
  let bLens2 := snd <$> rows in
  foldl (missing_round uvs starts bDiff bLens2 borderToTri) (Ok triIdxs) missing.

(** *** The fallback as section 4.4 of the specification words it *)

(** The squared length of a direction vector, dx^2 + dy^2. *)
Definition spec_len2 (dd : uv_t F) : F :=
  fadd (fmul dd.1 dd.1) (fmul dd.2 dd.2).

(** The squared distance from [pt] to its clamped projection onto the
    segment from [uv1] to [uv2]. *)
Definition spec_dist2 (uv1 uv2 pt : uv_t F) : F :=
  let dd := (fsub uv2.1 uv1.1, fsub uv2.2 uv1.2) in
  edge_l2 uv1 dd (spec_len2 dd) pt.
End Fallback.

(** ** Exact rational numbers as an interpretation of [double] *)

(** Sums, differences, products and quotients of small dyadic numbers are
    computed by [double] without rounding, so on such inputs this
    interpretation gives the numbers the program gives.  It parts from
    IEEE 754 on a division by zero, which the runs below do not perform. *)
Definition Qltb (a b : Q) : bool := negb (Qle_bool b a).

#[global] Instance Q_float : Float64 Q := {|
  fadd a b := Qred (a + b);
  fsub a b := Qred (a - b);
  fmul a b := Qred (a * b);
  fdiv a b := Qred (a / b);
  flt := Qltb;
  fle := Qle_bool;
  fzero := 0%Q;
  fone := 1%Q;
  fdbl_max := ((2 ^ 1024 - 2 ^ 971) # 1)%Q
|}.

(** Modelled from the spec: [pointInTri] of [uvMath.h], which is not among
    the sources.  Section 1 calls it the exact point-in-triangle predicate,
    a function of a point and three triangle vertices.  The point is inside
    when the three edge functions do not take both signs. *)
Definition edge_fn (p a b : uv_t Q) : Q :=
  ((p.1 - b.1) * (a.2 - b.2) - (a.1 - b.1) * (p.2 - b.2))%Q.

Definition pointInTri_exact (p a b c : uv_t Q) : bool :=
  let d1 := edge_fn p a b in
  let d2 := edge_fn p b c in
  let d3 := edge_fn p c a in
  let has_neg := Qltb d1 0 || Qltb d2 0 || Qltb d3 0 in
  let has_pos := Qltb 0 d1 || Qltb 0 d2 || Qltb 0 d3 in
  negb (has_neg && has_pos).

Definition Qpt (x y : Z) : uv_t Q := (inject_Z x, inject_Z y).

(** ** Inputs of the concrete runs *)

(** One triangle, corners (0,0), (4,0), (0,4). *)
Definition one_tri_uvs : list (uv_t Q) := [Qpt 0 0; Qpt 4 0; Qpt 0 4].
Definition one_tri : list nat := [0; 1; 2].

(** The square with corners (0,0) and (4,4), cut along the diagonal from
    (4,0) to (0,4): triangle 0 below it, triangle 1 above. *)
Definition square_uvs : list (uv_t Q) := [Qpt 0 0; Qpt 4 0; Qpt 0 4; Qpt 4 4].
Definition square_tris : list nat := [0; 1; 2; 1; 3; 2].

(** The one triangle and a fourth vertex (5,5) that no triangle uses. *)
Definition far_uvs : list (uv_t Q) := [Qpt 0 0; Qpt 4 0; Qpt 0 4; Qpt 5 5].

(** The triangle of the scenarios of section 8, corners (0,0), (1,0),
    (0,1), and its query point (1/4, 1/4). *)
Definition unit_tri_uvs : list (uv_t Q) := [Qpt 0 0; Qpt 1 0; Qpt 0 1].
Definition quarter : uv_t Q := ((1 # 4)%Q, (1 # 4)%Q).

(** Two boundary edges, from (0,0) to (4,2) and from (2,3) to (3,3), and the
    point (2,1), which lies on the first. *)
Definition edges_uvs : list (uv_t Q) :=
  [Qpt 0 0; Qpt 4 2; Qpt 2 3; Qpt 3 3; Qpt 2 1].
Definition edges_borders : list edge_t := [(0, 1); (2, 3)].

(** Two triangles apart from each other: triangle 0 with corners (0,0),
    (1,0), (0,1) and triangle 1 with corners (10,0), (11,0), (10,1); and the
    point (41/4, 1/4) inside triangle 1. *)
Definition islands_uvs : list (uv_t Q) :=
  [Qpt 0 0; Qpt 1 0; Qpt 0 1; Qpt 10 0; Qpt 11 0; Qpt 10 1].
Definition islands_tris : list nat := [0; 1; 2; 3; 4; 5].
Definition in_island_1 : uv_t Q := ((41 # 4)%Q, (1 # 4)%Q).

Definition islands_queries : list (uv_t Q) := replicate 6 in_island_1.

(** What [sweep_init] sets up for the two triangles, and the state the loop
    returns from when the load of line 101 gives 11. *)
Definition islands_env : env Q :=
  {| xmns := [0; 10]%Q; ymns := [0; 0]%Q; xmxs := [1; 11]%Q; ymxs := [1; 1]%Q;
     qpx := [0; 1; 0; 10; 11; 10]%Q;
     qpSIdxs := [0; 2; 1; 3; 5; 4]; mxSIdxs := [0; 1]; mnSIdxs := [0; 1];
     skip := [false; false] |}.

Definition islands_start : state Q :=
  {| qpSIdx := 0; mxSIdx := 0; mnSIdx := 0;
     qpIdx := 0; mxIdx := 0; mnIdx := 0;
     qp := 0%Q; mx := 1%Q; mn := 0%Q;
     out := [0; 0; 0; 0; 0; 0]; missing := [0; 0; 0; 0; 0; 0];
     activeTris := [false; false]; atSet := ∅ |}.

Definition islands_end : state Q :=
  {| qpSIdx := 6; mxSIdx := 1; mnSIdx := 2;
     qpIdx := 4; mxIdx := 1; mnIdx := 1;
     qp := 11%Q; mx := 11%Q; mn := 12%Q;
     out := [0; 0; 0; 1; 1; 1]; missing := [0; 0; 0; 0; 0; 0; 0; 2; 1];
     activeTris := [false; true]; atSet := {[1]} |}.

(** Query points for the other runs. *)
Definition square_queries : list (uv_t Q) := replicate 4 (Qpt 3 3).
Definition order_queries : list (uv_t Q) := [Qpt 2 1; Qpt 1 1; Qpt 1 2; Qpt 1 1].
Definition inside_queries : list (uv_t Q) := replicate 3 (Qpt 1 1).
Definition far_queries : list (uv_t Q) := replicate 4 (Qpt 1 1).
Definition mixed_queries : list (uv_t Q) := [Qpt 1 1; Qpt 9 9; Qpt 1 1].

(** The state one round after [islands_start]: Activate has put triangle 0
    in the active set and moved the xmin cursor on. *)
Definition islands_round1 : state Q :=
  {| qpSIdx := 0; mxSIdx := 0; mnSIdx := 1;
     qpIdx := 0; mxIdx := 0; mnIdx := 1;
     qp := 0%Q; mx := 1%Q; mn := 10%Q;
     out := [0; 0; 0; 0; 0; 0]; missing := [0; 0; 0; 0; 0; 0];
     activeTris := [true; false]; atSet := {[0]} |}.

(** Four query points for the three vertices of the one triangle. *)
Definition late_queries : list (uv_t Q) := [Qpt 1 1; Qpt 9 9; Qpt 1 1; Qpt 1 1].

(** A boundary edge from (0,0) to (2,2). *)
Definition diagonal_uvs : list (uv_t Q) := [Qpt 0 0; Qpt 2 2].

(** The start points, directions and divisors [handleMissing] hands to the
    scan for [edges_uvs] and [edges_borders]. *)
Definition edges_starts : list (uv_t Q) := [Qpt 0 0; Qpt 2 3].
Definition edges_dirs : list (uv_t Q) := [Qpt 4 2; Qpt 1 0].
Definition edges_divisors : list Q := [4; 1]%Q.

(** The run on [far_uvs] when the load of line 101 gives 4: what the setup
    fixes, the state in which Deactivate takes the only element of its
    permutation, and the state after. *)
Definition far_env : env Q :=
  {| xmns := [0]%Q; ymns := [0]%Q; xmxs := [4]%Q; ymxs := [4]%Q;
     qpx := [0; 4; 0; 5]%Q;
     qpSIdxs := [0; 2; 1; 3]; mxSIdxs := [0]; mnSIdxs := [0];
     skip := [false] |}.

Definition far_before : state Q :=
  {| qpSIdx := 3; mxSIdx := 0; mnSIdx := 1;
     qpIdx := 3; mxIdx := 0; mnIdx := 0;
     qp := 5%Q; mx := 4%Q; mn := 5%Q;
     out := [0; 0; 0; 0]; missing := [0; 0; 0; 0];
     activeTris := [true]; atSet := {[0]} |}.

Definition far_after : state Q :=
  {| qpSIdx := 3; mxSIdx := 1; mnSIdx := 1;
     qpIdx := 3; mxIdx := 0; mnIdx := 0;
     qp := 5%Q; mx := 4%Q; mn := 5%Q;
     out := [0; 0; 0; 0]; missing := [0; 0; 0; 0];
     activeTris := [false]; atSet := ∅ |}.

(** ** Predicates the results are stated with *)

(** [before lt v a b]: index [a] may stand in front of index [b] in the
    stable ordering of the keys [v]: the key of [b] is not smaller, and
    when the two keys are equivalent [a] is the earlier position. *)
Definition before {T : Type} (lt : T → T → bool) (v : list T) (a b : nat) : Prop :=
  ∃ x y, v !! a = Some x ∧ v !! b = Some y ∧
         lt y x = false ∧ (lt x y = false → a < b).

Section Predicates.
Context {F : Type} `{Float64 F}.

Definition state_of (st : status F) : state F :=
  match st with
  | Continue s => s
  | Break s => s
  end.

(** [next ... e s s']: one round of the loop leads from [s] to [s']. *)
Definition next (pointInTri : uv_t F → uv_t F → uv_t F → uv_t F → bool)
    (wild : option F) (qPoints uvs : list (uv_t F)) (tris : list nat)
    (e : env F) (s s' : state F) : Prop :=
  ∃ st, step pointInTri wild qPoints uvs tris e s = Ok st ∧ state_of st = s'.

(** The set and the flags tell the same, and no skipped triangle is in
    the set. *)
Definition active_inv (e : env F) (s : state F) : Prop :=
  (∀ t, t ∈ atSet s ↔ activeTris s !! t = Some true) ∧
  (∀ t, t ∈ atSet s → skip e !! t = Some false).

(** What a round leaves alone in every case. *)
Definition same_query (s s' : state F) : Prop :=
  qpSIdx s' = qpSIdx s ∧ qpIdx s' = qpIdx s ∧ qp s' = qp s ∧
  out s' = out s ∧ missing s' = missing s.

Definition same_active (s s' : state F) : Prop :=
  activeTris s' = activeTris s ∧ atSet s' = atSet s.

(** The query indices the Test action has been through. *)
Definition visited (e : env F) (s : state F) : list nat :=
  take (qpSIdx s) (qpSIdxs e).

(** How [out] and [missing] stand to what lines 75 and 76 left in them:
    [missing] has grown by the indices [pushed], each of them visited, in
    range, and with its [out] entry as line 75 left it; an [out] entry
    differs from what line 75 left only where a triangle hit. *)
Definition results_inv
    (pointInTri : uv_t F → uv_t F → uv_t F → uv_t F → bool)
    (qPoints uvs : list (uv_t F)) (tris : list nat)
    (out0 missing0 : list nat) (e : env F) (s : state F) : Prop :=
  let n := length qPoints in
  (qpSIdx s < length (qpSIdxs e) → qpSIdxs e !! qpSIdx s = Some (qpIdx s)) ∧
  length (out s) = n ∧
  (∀ i, i ∉ visited e s → out s !! i = resize n 0 out0 !! i) ∧
  (∀ i t, out s !! i = Some t →
     resize n 0 out0 !! i = Some t ∨
     ∃ q, qPoints !! i = Some q ∧ hit pointInTri uvs tris e q t = Ok true) ∧
  ∃ pushed,
    missing s = resize n 0 missing0 ++ pushed ∧
    ∀ i, i ∈ pushed →
      i ∈ visited e s ∧ i < n ∧ out s !! i = resize n 0 out0 !! i.

(** The xmin cursor and the query cursor stand on elements of their
    permutations, and [mn] and [qp] are the keys found there. *)
Definition cursors_inv (e : env F) (s : state F) : Prop :=
  mnSIdxs e !! mnSIdx s = Some (mnIdx s) ∧
  xmns e !! mnIdx s = Some (mn s) ∧
  qpSIdxs e !! qpSIdx s = Some (qpIdx s) ∧
  qpx e !! qpIdx s = Some (qp s).

(** The xmax cursor's key is an element of [xmxs], and [qp] is the key of
    the query index the cursor stands on. *)
Definition xmax_inv (e : env F) (s : state F) : Prop :=
  xmxs e !! mxIdx s = Some (mx s) ∧
  qpSIdxs e !! qpSIdx s = Some (qpIdx s) ∧
  qpx e !! qpIdx s = Some (qp s).

(** A vertex to the right of every corner of every triangle. *)
Definition far_vertex (uvs : list (uv_t F)) (tris : list nat) (p : uv_t F)
  : Prop :=
  p ∈ uvs ∧
  ∀ k j q, tris !! k = Some j → uvs !! j = Some q → flt q.1 p.1 = true.

(** The indices line 120 has pushed: what [missing] holds behind the
    entries line 76 put there. *)
Definition pushed (qPoints : list (uv_t F)) (s : state F) : list nat :=
  drop (length qPoints) (missing s).

(** Every visited index is a valid query index, and is either pushed or
    has the triangle of a hit in [out]; the pushed indices come in the
    order of the visit. *)
Definition account_inv
    (pointInTri : uv_t F → uv_t F → uv_t F → uv_t F → bool)
    (qPoints uvs : list (uv_t F)) (tris : list nat)
    (e : env F) (s : state F) : Prop :=
  (qpSIdx s < length (qpSIdxs e) → qpSIdxs e !! qpSIdx s = Some (qpIdx s)) ∧
  length (out s) = length qPoints ∧
  length qPoints ≤ length (missing s) ∧
  pushed qPoints s `sublist_of` visited e s ∧
  ∀ i, i ∈ visited e s →
    i < length qPoints ∧
    (i ∈ pushed qPoints s ∨
     ∃ t q, out s !! i = Some t ∧ qPoints !! i = Some q ∧
            hit pointInTri uvs tris e q t = Ok true).

(** While the xmin cursor has elements left, it stands on one and [mn] is
    its key. *)
Definition xmin_inv (e : env F) (s : state F) : Prop :=
  mnSIdx s ≤ length (mnSIdxs e) ∧
  (mnSIdx s < length (mnSIdxs e) →
   mnSIdxs e !! mnSIdx s = Some (mnIdx s) ∧ xmns e !! mnIdx s = Some (mn s)).

(** Rounds the three cursors still have in them. *)
Definition rounds_left (e : env F) (s : state F) : nat :=
  (length (mnSIdxs e) - mnSIdx s) + (length (mxSIdxs e) - mxSIdx s)
  + (length (qpSIdxs e) - qpSIdx s).
End Predicates.

Section FallbackPredicates.
Context {F : Type} `{Float64 F}.

(** The squared distance line 178 computes in round [j] of the scan. *)
Definition l2_at (a d : list (uv_t F)) (dr2 : list F) (pt : uv_t F) (j : nat)
  : option F :=
  match a !! j, d !! j, dr2 !! j with
  | Some aa, Some dd, Some r2 => Some (edge_l2 aa dd r2 pt)
  | _, _, _ => None
  end.

(** What the scan holds in [(minIdx, minVal)] after the rounds below [k]. *)
Definition scan_inv (a d : list (uv_t F)) (dr2 : list F) (pt : uv_t F)
    (k : nat) (acc : nat * F) : Prop :=
  fle acc.2 fdbl_max = true ∧
  (∀ j x, j < k → l2_at a d dr2 pt j = Some x → fle acc.2 x = true) ∧
  ((acc.1 = 0 ∧ acc.2 = fdbl_max ∧
    ∀ j x, j < k → l2_at a d dr2 pt j = Some x → flt x fdbl_max = false) ∨
   (acc.1 < k ∧ l2_at a d dr2 pt acc.1 = Some acc.2 ∧
    ∀ j x, j < acc.1 → l2_at a d dr2 pt j = Some x → flt acc.2 x = true)).

(** What lines 220-222 find for the index [m]: the triangle [t]. *)
Definition found_in (uvs starts bDiff : list (uv_t F)) (bLens2 : list F)
    (borderToTri : list nat) (m t : nat) : Prop :=
  ∃ mp e, uvs !! m = Some mp ∧
          closestBruteForceEdge starts bDiff bLens2 mp = Ok e ∧
          borderToTri !! e = Some t.

(** Lines 220-222 for one index, on the vectors of lines 209-217: the
    triangle [handleMissing] has for [mIdx]. *)
Definition nearest_triangle (uvs : list (uv_t F)) (borders : list edge_t)
    (borderToTri : list nat) (mIdx : nat) : result nat :=
  rows ←! mapR (border_row uvs) borders;
  mp ←! rd OobMissing uvs mIdx;
  closestEdge ←! closestBruteForceEdge ((λ r, r.1.1) <$> rows)
                   ((λ r, r.1.2) <$> rows) (snd <$> rows) mp;
  rd OobMissing borderToTri closestEdge.
End FallbackPredicates.

(** * Results *)

(** ** argsort *)

Section Argsort.
Context {T : Type} (lt : T → T → bool).

Lemma stable_insert_perm {A} (comp : A → A → bool) x l :
  stable_insert comp x l ≡ₚ x :: l.
Proof.
  induction l as [|y ys IH]; simpl; [done|].
  destruct (comp y x); [|done].
  rewrite IH. apply Permutation_swap.
Qed.

Lemma stable_sort_perm {A} (comp : A → A → bool) l :
  stable_sort comp l ≡ₚ l.
Proof.
  induction l as [|x l IH]; simpl; [done|].
  rewrite stable_insert_perm. by rewrite IH.
Qed.

Lemma argsort_perm (v : list T) : argsort lt v ≡ₚ seq 0 (length v).
Proof. apply stable_sort_perm. Qed.

Lemma argsort_length (v : list T) : length (argsort lt v) = length v.
Proof. by rewrite (Permutation_length (argsort_perm v)), length_seq. Qed.

Lemma argsort_NoDup (v : list T) : NoDup (argsort lt v).
Proof. rewrite argsort_perm. apply NoDup_seq. Qed.

Lemma argsort_elem (v : list T) i : i ∈ argsort lt v ↔ i < length v.
Proof. rewrite argsort_perm, elem_of_seq. lia. Qed.

Lemma argsort_lookup_lt (v : list T) k i :
  argsort lt v !! k = Some i → i < length v.
Proof. intros Hk. apply argsort_elem. by eapply list_elem_of_lookup_2. Qed.
End Argsort.

Lemma StronglySorted_lookup {A} (R : A → A → Prop) (l : list A) i j a b :
  StronglySorted R l → i < j → l !! i = Some a → l !! j = Some b → R a b.
Proof.
  intros Hs. revert i j. induction Hs as [|x l Hs IH Hx]; intros i j Hij Ha Hb.
  { done. }
  destruct j as [|j]; [lia|]. destruct i as [|i]; simpl in *.
  - injection Ha as ->. eapply Forall_forall; [exact Hx|].
    by eapply list_elem_of_lookup_2.
  - apply (IH i j); [lia|done|done].
Qed.

Section ArgsortOrder.
Context {T : Type} (lt : T → T → bool) `{!StrictWeakOrder lt}.

Lemma swo_asym x y : lt x y = true → lt y x = false.
Proof.
  intros Hxy. destruct (lt y x) eqn:Hyx; [|done].
  by rewrite <- (swo_irrefl (lt := lt) x), <- (swo_trans x y x Hxy Hyx).
Qed.

(** Not smaller is transitive. *)
Lemma swo_neg_trans x y z : lt x y = false → lt y z = false → lt x z = false.
Proof.
  intros Hxy Hyz. destruct (lt x z) eqn:Hxz; [|done].
  destruct (lt y x) eqn:Hyx.
  { by rewrite (swo_trans y x z Hyx Hxz) in Hyz. }
  destruct (lt z y) eqn:Hzy.
  { by rewrite (swo_trans x z y Hxz Hzy) in Hxy. }
  destruct (swo_equiv_trans x y z Hxy Hyx Hyz Hzy) as [Hf _]. congruence.
Qed.

Lemma before_trans (v : list T) a b c :
  before lt v a b → before lt v b c → before lt v a c.
Proof.
  intros (x & y & Ha & Hb & Hyx & Hab) (y' & z & Hb' & Hc & Hzy & Hbc).
  assert (y' = y) as -> by congruence.
  exists x, z. repeat split; [done|done|by eapply swo_neg_trans|].
  intros Hxz.
  assert (lt x y = false) as Hxy.
  { destruct (lt x y) eqn:E; [|done].
    by rewrite (swo_neg_trans x z y Hxz Hzy) in E. }
  assert (lt y z = false) as Hyz.
  { destruct (lt y z) eqn:E; [|done].
    by rewrite (swo_neg_trans y x z Hyx Hxz) in E. }
  specialize (Hab Hxy). specialize (Hbc Hyz). lia.
Qed.

Lemma stable_insert_sorted (v : list T) x l :
  x < length v →
  Forall (λ y, x < y < length v) l →
  StronglySorted (before lt v) l →
  StronglySorted (before lt v) (stable_insert (key_less lt v) x l).
Proof.
  intros Hx Hl Hs. induction Hs as [|y ys Hs IH Hy]; simpl.
  { repeat constructor. }
  apply Forall_cons in Hl as [[Hxy Hyv] Hl].
  destruct (lookup_lt_is_Some_2 v x Hx) as [kx Hkx].
  destruct (lookup_lt_is_Some_2 v y Hyv) as [ky Hky].
  unfold key_less at 1. rewrite Hky, Hkx.
  destruct (lt ky kx) eqn:Hlt.
  - constructor; [by apply IH|].
    rewrite stable_insert_perm. constructor; [|done].
    exists ky, kx. repeat split; [done|done|by apply swo_asym|congruence].
  - assert (before lt v x y) as Hb.
    { exists kx, ky. by repeat split. }
    constructor; [by constructor|].
    constructor; [done|].
    eapply Forall_impl; [exact Hy|]. intros z Hz. by eapply before_trans.
Qed.

Lemma stable_sort_seq_sorted (v : list T) start len :
  start + len ≤ length v →
  StronglySorted (before lt v) (stable_sort (key_less lt v) (seq start len)).
Proof.
  revert start. induction len as [|len IH]; intros start Hle; simpl.
  { constructor. }
  apply stable_insert_sorted; [lia| |apply IH; lia].
  rewrite stable_sort_perm. apply Forall_seq. intros j Hj. lia.
Qed.

Lemma argsort_sorted (v : list T) : StronglySorted (before lt v) (argsort lt v).
Proof. apply stable_sort_seq_sorted. lia. Qed.

(** C8.  [argsort] returns as many indices as there are keys, each
    position 0..n-1 exactly once; along the result the keys never
    decrease, and two positions with equivalent keys come in their
    original order. *)
Theorem argsort_contract (v : list T) :
  length (argsort lt v) = length v ∧
  argsort lt v ≡ₚ seq 0 (length v) ∧
  (∀ i j a b, i < j →
     argsort lt v !! i = Some a → argsort lt v !! j = Some b →
     ∃ x y, v !! a = Some x ∧ v !! b = Some y ∧
            lt y x = false ∧ (lt x y = false → a < b)).
Proof.
  split; [apply argsort_length|]. split; [apply argsort_perm|].
  intros i j a b Hij Ha Hb.
  pose proof (argsort_sorted v) as Hs.
  exact (StronglySorted_lookup _ _ i j a b Hs Hij Ha Hb).
Qed.
End ArgsortOrder.

(** [<] on the rationals is a strict weak order. *)
Lemma Qltb_lt a b : Qltb a b = true ↔ (a < b)%Q.
Proof.
  unfold Qltb. rewrite negb_true_iff, <- not_true_iff_false, Qle_bool_iff.
  split; [apply Qnot_le_lt|apply Qlt_not_le].
Qed.

Lemma Qltb_ge a b : Qltb a b = false ↔ (b <= a)%Q.
Proof. unfold Qltb. by rewrite negb_false_iff, Qle_bool_iff. Qed.

Lemma Qltb_swo : StrictWeakOrder Qltb.
Proof.
  split.
  - intros x. apply Qltb_ge, Qle_refl.
  - intros x y z. rewrite !Qltb_lt. apply Qlt_trans.
  - intros x y z. rewrite !Qltb_ge. intros Hyx Hxy Hzy Hyz.
    split; eapply Qle_trans; eauto.
Qed.

Lemma argsort_contract_witness :
  StrictWeakOrder Qltb ∧
  length (argsort Qltb [3; 1; 3; 2]%Q) = 4 ∧
  argsort Qltb [3; 1; 3; 2]%Q ≡ₚ [0; 1; 2; 3] ∧
  (∀ i j a b, i < j →
     argsort Qltb [3; 1; 3; 2]%Q !! i = Some a →
     argsort Qltb [3; 1; 3; 2]%Q !! j = Some b →
     ∃ x y, [3; 1; 3; 2]%Q !! a = Some x ∧ [3; 1; 3; 2]%Q !! b = Some y ∧
            Qltb y x = false ∧ (Qltb x y = false → a < b)).
Proof.
  split; [exact Qltb_swo|].
  exact (argsort_contract Qltb (StrictWeakOrder0 := Qltb_swo) [3; 1; 3; 2]%Q).
Defined.

Example argsort_run : argsort Qltb [3; 1; 3; 2]%Q = [1; 3; 0; 2].
Proof. reflexivity. Qed.

(** ** The error monad *)

Lemma rd_Ok {A} f (v : list A) i x : rd f v i = Ok x ↔ v !! i = Some x.
Proof. unfold rd. destruct (v !! i); split; congruence. Qed.

Lemma rd_Err {A} f g (v : list A) i : rd f v i = Err g ↔ v !! i = None ∧ g = f.
Proof.
  unfold rd. destruct (v !! i); split;
    [discriminate|intros [? _]; discriminate|intros [= ->]; done|intros [_ ->]; done].
Qed.

Lemma bind_Ok {A B} (m : result A) (k : A → result B) b :
  result_bind m k = Ok b ↔ ∃ a, m = Ok a ∧ k a = Ok b.
Proof.
  destruct m as [a|f]; simpl; split; eauto.
  - intros (a' & [= <-] & Hk). done.
  - done.
  - intros (a' & [=] & _).
Qed.

(** Take a successful computation apart into its successful parts. *)
Ltac ok_inv H :=
  repeat match type of H with
  | result_bind _ _ = Ok _ =>
      let a := fresh "a" in let E := fresh "E" in
      apply bind_Ok in H as (a & E & H)
  | (if ?c then _ else _) = Ok _ =>
      let D := fresh "D" in destruct c eqn:D
  | (match ?x with (_, _) => _ end) = Ok _ => destruct x
  | Ok _ = Ok _ => injection H as H
  | Err _ = Ok _ => discriminate H
  end.

Lemma mapR_length {A B} (f : A → result B) l r :
  mapR f l = Ok r → length r = length l.
Proof.
  revert r. induction l as [|x l IH]; simpl; intros r Hr.
  - by injection Hr as <-.
  - ok_inv Hr. subst r. simpl. f_equal. by apply IH.
Qed.

Lemma mapR_lookup {A B} (f : A → result B) l r i x :
  mapR f l = Ok r → l !! i = Some x → ∃ y, r !! i = Some y ∧ f x = Ok y.
Proof.
  revert r i. induction l as [|x' l IH]; simpl; intros r i Hr Hi; [done|].
  ok_inv Hr. subst r. destruct i as [|i]; simpl in *.
  - injection Hi as ->. eauto.
  - by eapply IH.
Qed.

Lemma mapR_total {A B} (f : A → result B) l :
  Forall (λ x, ∃ y, f x = Ok y) l → ∃ r, mapR f l = Ok r.
Proof.
  induction 1 as [|x l [y Hy] _ [r Hr]]; simpl; [by eexists|].
  rewrite Hy. simpl. rewrite Hr. simpl. by eexists.
Qed.

Lemma rdN_neg1 {A} (v : list A) :
  (N.of_nat (length v) < 2 ^ 64)%N → rdN v size_t_neg1 = None.
Proof.
  intros Hlen. unfold rdN, size_t_neg1.
  destruct (N.ltb_spec (2 ^ 64 - 1) (N.of_nat (length v))); [lia|done].
Qed.

(** ** One round of the sweep *)

Ltac frame :=
  simpl; unfold same_query, same_active; simpl;
  repeat match goal with
  | |- _ ∧ _ => split
  | |- _ → _ => intros
  end;
  try done; try congruence;
  try (left; by repeat split); try (right; by repeat split).

Section SweepRounds.
Context {F : Type} `{Float64 F}.
Variable pointInTri : uv_t F → uv_t F → uv_t F → uv_t F → bool.
Variable wild : option F.
Variables (qPoints uvs : list (uv_t F)) (tris : list nat).

Lemma activate_spec e s s' :
  activate wild tris e s = Ok s' →
  ∃ t, mnSIdxs e !! mnSIdx s = Some t ∧
       mnSIdx s' = S (mnSIdx s) ∧
       mxSIdx s' = mxSIdx s ∧ mx s' = mx s ∧
       same_query s s' ∧
       (same_active s s' ∨
        (activeTris s !! t = Some false ∧ skip e !! t = Some false ∧
         activeTris s' = <[t := true]> (activeTris s) ∧
         atSet s' = {[t]} ∪ atSet s)).
Proof.
  unfold activate. intros Hs.
  apply bind_Ok in Hs as (t & Ht%rd_Ok & Hs).
  apply bind_Ok in Hs as (act & Hact%rd_Ok & Hs).
  apply bind_Ok in Hs as (sk & Hsk & Hs).
  exists t. split; [done|].
  destruct act; simpl in Hs.
  - ok_inv Hs; subst s'; frame.
  - apply rd_Ok in Hsk.
    destruct sk; simpl in Hs; ok_inv Hs; subst s'; frame.
Qed.

Lemma deactivate_spec (e : env F) s s' :
  deactivate e s = Ok s' →
  ∃ t, mxSIdxs e !! mxSIdx s = Some t ∧
       mxSIdx s' = S (mxSIdx s) ∧
       mnSIdx s' = mnSIdx s ∧ mn s' = mn s ∧
       same_query s s' ∧
       (S (mxSIdx s) = length (mxSIdxs e) → mx s' = mx s) ∧
       (same_active s s' ∨
        (activeTris s !! t = Some true ∧
         activeTris s' = <[t := false]> (activeTris s) ∧
         atSet s' = atSet s ∖ {[t]})).
Proof.
  unfold deactivate. intros Hs.
  apply bind_Ok in Hs as (t & Ht%rd_Ok & Hs).
  apply bind_Ok in Hs as (act & Hact%rd_Ok & Hs).
  apply bind_Ok in Hs as (sk & Hsk & Hs).
  exists t. split; [done|].
  destruct act; simpl in Hs.
  - apply rd_Ok in Hsk.
    destruct sk; simpl in Hs; ok_inv Hs; subst s'; frame.
  - ok_inv Hs; subst s'; frame.
Qed.

Lemma scan_Some e q ts t :
  scan pointInTri uvs tris e q ts = Ok (Some t) →
  t ∈ ts ∧ hit pointInTri uvs tris e q t = Ok true.
Proof.
  induction ts as [|t' ts IH]; simpl; intros Hs; [done|].
  apply bind_Ok in Hs as (h & Hh & Hs). destruct h.
  - injection Hs as <-. split; [left|done].
  - destruct (IH Hs). split; [by right|done].
Qed.

Lemma test_spec e s st :
  test pointInTri qPoints uvs tris e s = Ok st →
  let s' := state_of st in
  ∃ q, qPoints !! qpIdx s = Some q ∧
       qpSIdx s' = S (qpSIdx s) ∧
       mnSIdx s' = mnSIdx s ∧ mxSIdx s' = mxSIdx s ∧
       same_active s s' ∧
       ((∃ t, t ∈ atSet s ∧ hit pointInTri uvs tris e q t = Ok true ∧
              out s' = <[qpIdx s := t]> (out s) ∧ missing s' = missing s) ∨
        (out s' = out s ∧ missing s' = missing s ++ [qpIdx s])) ∧
       match st with
       | Break _ => S (qpSIdx s) = length (qpSIdxs e)
       | Continue _ =>
           S (qpSIdx s) ≠ length (qpSIdxs e) ∧
           qpSIdxs e !! S (qpSIdx s) = Some (qpIdx s') ∧
           qpx e !! qpIdx s' = Some (qp s')
       end.
Proof.
  unfold test. intros Hs.
  apply bind_Ok in Hs as (q & Hq%rd_Ok & Hs).
  apply bind_Ok in Hs as (found & Hfound & Hs).
  exists q. split; [done|].
  assert ((∃ t, found = Some t ∧ t ∈ atSet s ∧
                hit pointInTri uvs tris e q t = Ok true) ∨ found = None)
    as Hcase.
  { destruct found as [t|]; [left|by right].
    apply scan_Some in Hfound as [Hin ?]. apply elem_of_elements in Hin. eauto. }
  destruct Hcase as [(t & -> & Hin & Hhit)| ->]; simpl in Hs.
  - destruct (decide _) as [Heq|Hne] in Hs.
    + injection Hs as <-. frame. left. eauto.
    + apply bind_Ok in Hs as (idx & Hidx%rd_Ok & Hs).
      apply bind_Ok in Hs as (x & Hx%rd_Ok & Hs).
      injection Hs as <-. frame. left. eauto.
  - destruct (decide _) as [Heq|Hne] in Hs.
    + injection Hs as <-. frame.
    + apply bind_Ok in Hs as (idx & Hidx%rd_Ok & Hs).
      apply bind_Ok in Hs as (x & Hx%rd_Ok & Hs).
      injection Hs as <-. frame.
Qed.

(** A round is one of the three actions. *)
Lemma step_cases e s st :
  step pointInTri wild qPoints uvs tris e s = Ok st →
  (choose s = Activate ∧ ∃ s', st = Continue s' ∧ activate wild tris e s = Ok s') ∨
  (choose s = Test ∧ test pointInTri qPoints uvs tris e s = Ok st) ∨
  (choose s = Deactivate ∧ ∃ s', st = Continue s' ∧ deactivate e s = Ok s').
Proof.
  unfold step. destruct (choose s); intros Hs.
  - left. split; [done|]. apply bind_Ok in Hs as (s' & ? & [= <-]). eauto.
  - right; left. done.
  - right; right. split; [done|]. apply bind_Ok in Hs as (s' & ? & [= <-]). eauto.
Qed.
End SweepRounds.

(** ** Runs of the sweep *)

Section SweepRuns.
Context {F : Type} `{Float64 F}.
Variable pointInTri : uv_t F → uv_t F → uv_t F → uv_t F → bool.
Variable wild : option F.
Variables (qPoints uvs : list (uv_t F)) (tris : list nat).

Local Abbreviation step' := (step pointInTri wild qPoints uvs tris).
Local Abbreviation next' := (next pointInTri wild qPoints uvs tris).
Local Abbreviation run' := (run pointInTri wild qPoints uvs tris).

(** What [sweep_init] sets up. *)
Lemma sweep_init_spec out0 missing0 e s :
  sweep_init qPoints uvs tris out0 missing0 = Ok (e, s) →
  qpx e = fst <$> uvs ∧
  qpSIdxs e = argsort flt (qpx e) ∧
  mxSIdxs e = argsort flt (xmxs e) ∧
  mnSIdxs e = argsort flt (xmns e) ∧
  length (xmns e) = numTris tris ∧
  length (xmxs e) = numTris tris ∧
  skip e = (λ x, flt x (qp s)) <$> xmxs e ∧
  qpSIdx s = 0 ∧ mxSIdx s = 0 ∧ mnSIdx s = 0 ∧
  qpSIdxs e !! 0 = Some (qpIdx s) ∧
  out s = resize (length qPoints) 0 out0 ∧
  missing s = resize (length qPoints) 0 missing0 ∧
  activeTris s = replicate (numTris tris) false ∧
  atSet s = ∅.
Proof.
  unfold sweep_init. intros Hs.
  apply bind_Ok in Hs as (bs & Hbs%mapR_length & Hs).
  rewrite length_seq in Hbs.
  apply bind_Ok in Hs as (i1 & Hi1%rd_Ok & Hs).
  ok_inv Hs. subst e s. simpl.
  rewrite !length_fmap. repeat split; done.
Qed.

Lemma run_invariant (P : state F → Prop) e :
  (∀ s st, P s → step' e s = Ok st → P (state_of st)) →
  ∀ fuel s s', P s → run' fuel e s = Returned s' → P s'.
Proof.
  intros Hstep fuel. induction fuel as [|fuel IH]; simpl; intros s s' HP Hrun.
  { done. }
  destruct (step' e s) as [[s1|s1]|f] eqn:Hs; [| |done].
  - apply (IH s1); [|done]. apply (Hstep s _ HP Hs).
  - injection Hrun as <-. apply (Hstep s _ HP Hs).
Qed.

Lemma rtc_invariant (P : state F → Prop) e :
  (∀ s st, P s → step' e s = Ok st → P (state_of st)) →
  ∀ s s', P s → rtc (next' e) s s' → P s'.
Proof.
  intros Hstep s s' HP Hr. induction Hr as [|s s1 s2 (st & Hst & <-) _ IH].
  { done. }
  apply IH. by eapply Hstep.
Qed.

Lemma run_reaches e fuel s s' :
  run' fuel e s = Returned s' → rtc (next' e) s s'.
Proof.
  revert s. induction fuel as [|fuel IH]; simpl; intros s Hrun; [done|].
  destruct (step' e s) as [[s1|s1]|f] eqn:Hs; [| |done].
  - eapply rtc_l; [|by apply IH]. by exists (Continue s1).
  - injection Hrun as <-. apply rtc_once. by exists (Break s1).
Qed.

(** *** The active set *)

Lemma active_inv_init out0 missing0 e s :
  sweep_init qPoints uvs tris out0 missing0 = Ok (e, s) → active_inv e s.
Proof.
  intros Hi. apply sweep_init_spec in Hi.
  destruct Hi as (_&_&_&_&_&_&_&_&_&_&_&_&_&Hact&Hset).
  split; intros t; rewrite Hset.
  - rewrite Hact. split; [set_solver|]. intros [[=] _]%lookup_replicate.
  - set_solver.
Qed.

Lemma active_inv_step e s st :
  active_inv e s → step' e s = Ok st → active_inv e (state_of st).
Proof.
  intros [Hagree Hskip] Hs.
  apply step_cases in Hs as [(_ & s' & -> & Hs)|[[_ Hs]|(_ & s' & -> & Hs)]]; simpl.
  - apply activate_spec in Hs as (t & _ & _ & _ & _ & _ & Hcase).
    destruct Hcase as [[Ha Hb]|(Hf & Hsk & Ha & Hb)]; split; intros t';
      rewrite ?Ha, ?Hb; auto.
    + rewrite elem_of_union, elem_of_singleton, Hagree.
      destruct (decide (t' = t)) as [->|Hne].
      * rewrite list_lookup_insert_eq by (by eapply lookup_lt_Some). tauto.
      * rewrite list_lookup_insert_ne by done. tauto.
    + rewrite elem_of_union, elem_of_singleton. intros [->|Hin]; auto.
  - apply test_spec in Hs as (q & _ & _ & _ & _ & [Ha Hb] & _).
    split; intros t'; rewrite ?Ha, ?Hb; auto.
  - apply deactivate_spec in Hs as (t & _ & _ & _ & _ & _ & _ & Hcase).
    destruct Hcase as [[Ha Hb]|(Ht & Ha & Hb)]; split; intros t';
      rewrite ?Ha, ?Hb; auto.
    + rewrite elem_of_difference, elem_of_singleton, Hagree.
      destruct (decide (t' = t)) as [->|Hne].
      * rewrite list_lookup_insert_eq by (by eapply lookup_lt_Some).
        split; [tauto|done].
      * rewrite list_lookup_insert_ne by done. tauto.
    + rewrite elem_of_difference. intros [Hin _]; auto.
Qed.

(** C9.  In every state the loop reaches, a triangle is in the active set
    exactly when its flag is set, the set lists no triangle twice, and it
    holds no skipped triangle. *)
Theorem sweep_active_set_agrees out0 missing0 e s0 s :
  sweep_init qPoints uvs tris out0 missing0 = Ok (e, s0) →
  rtc (next' e) s0 s →
  (∀ t, t ∈ atSet s ↔ activeTris s !! t = Some true) ∧
  NoDup (elements (atSet s)) ∧
  (∀ t, skip e !! t = Some true → t ∉ atSet s).
Proof.
  intros Hinit Hreach.
  assert (active_inv e s) as [Hagree Hskip].
  { eapply rtc_invariant; [apply active_inv_step| |done].
    by eapply active_inv_init. }
  split; [done|]. split; [apply NoDup_elements|].
  intros t Hsk Hin. specialize (Hskip t Hin). congruence.
Qed.
End SweepRuns.

(** ** What the sweep leaves in [out] and [missing] *)

Lemma NoDup_lookup_not_before {A} (l : list A) k x :
  NoDup l → l !! k = Some x → x ∉ take k l.
Proof.
  intros Hnd Hk Hin.
  rewrite <- (take_drop k l) in Hnd. apply NoDup_app in Hnd as (_ & Hdis & _).
  apply (Hdis x Hin). apply list_elem_of_lookup. exists 0.
  by rewrite lookup_drop, Nat.add_0_r.
Qed.

Lemma not_elem_of_snoc {A} (l : list A) x i : i ∉ (l ++ [x]) → (i ∉ l) ∧ x ≠ i.
Proof.
  intros Hn. split.
  - intros Hi. apply Hn, elem_of_app. by left.
  - intros ->. apply Hn, elem_of_app. right. by left.
Qed.

Section SweepResults.
Context {F : Type} `{Float64 F}.
Variable pointInTri : uv_t F → uv_t F → uv_t F → uv_t F → bool.
Variable wild : option F.
Variables (qPoints uvs : list (uv_t F)) (tris : list nat).
Variables (out0 missing0 : list nat).

Local Abbreviation step' := (step pointInTri wild qPoints uvs tris).
Local Abbreviation run' := (run pointInTri wild qPoints uvs tris).
Local Abbreviation results_inv' :=
  (results_inv pointInTri qPoints uvs tris out0 missing0).

Lemma results_inv_init e s :
  sweep_init qPoints uvs tris out0 missing0 = Ok (e, s) → results_inv' e s.
Proof.
  intros Hi. apply sweep_init_spec in Hi.
  destruct Hi as (_&_&_&_&_&_&_&Hq&_&_&Hq0&Hout&Hmiss&_&_).
  unfold results_inv, visited. rewrite Hq, Hout, Hmiss.
  split; [done|]. split; [apply length_resize|]. split; [done|].
  split; [by left|]. exists []. split; [by rewrite app_nil_r|].
  intros i Hi. by apply elem_of_nil in Hi.
Qed.

Lemma results_inv_step e s st :
  NoDup (qpSIdxs e) →
  results_inv' e s → step' e s = Ok st → results_inv' e (state_of st).
Proof.
  intros Hnd (Hcur & Hlen & Hfresh & Hhit & pushed & Hmiss & Hpushed) Hs.
  apply step_cases in Hs as [(_ & s' & -> & Hs)|[[_ Hs]|(_ & s' & -> & Hs)]]; simpl.
  - apply activate_spec in Hs as (t & _ & _ & _ & _ & (Hq & Hi & _ & Ho & Hm) & _).
    unfold results_inv, visited. rewrite Hq, Hi, Ho, Hm. eauto 10.
  - apply test_spec in Hs as (q & Hq & Hk & _ & _ & _ & Hcase & Hend).
    set (s' := state_of st) in *.
    assert (qpSIdx s < length (qpSIdxs e)) as Hlt.
    { destruct st as [s1|s1]; [|lia].
      destruct Hend as (_ & Hl%lookup_lt_Some & _). lia. }
    specialize (Hcur Hlt).
    assert (visited e s' = visited e s ++ [qpIdx s]) as Hvis.
    { unfold visited. rewrite Hk. by apply take_S_r. }
    assert (qpIdx s ∉ visited e s) as Hnew
      by by apply NoDup_lookup_not_before.
    unfold results_inv. rewrite Hvis.
    split.
    { destruct st as [s1|s1]; [|simpl in *; lia].
      destruct Hend as (_ & Hl & _). by rewrite Hk. }
    destruct Hcase as [(t & Ht & Hth & Ho & Hm)|[Ho Hm]]; rewrite Ho, Hm.
    + split; [by rewrite length_insert|].
      split.
      { intros i [Hi Hne]%not_elem_of_snoc.
        rewrite list_lookup_insert_ne by done. by apply Hfresh. }
      split.
      { intros i t' Hit. destruct (decide (i = qpIdx s)) as [->|Hne].
        - rewrite list_lookup_insert_eq in Hit
            by (rewrite Hlen; by eapply lookup_lt_Some).
          injection Hit as <-. right. eauto.
        - rewrite list_lookup_insert_ne in Hit by done. eauto. }
      exists pushed. split; [done|]. intros i Hi.
      destruct (Hpushed i Hi) as (Hv & Hin & Hz).
      split; [apply elem_of_app; by left|]. split; [done|].
      rewrite list_lookup_insert_ne by (by intros <-). done.
    + split; [done|].
      split; [intros i [Hi _]%not_elem_of_snoc; by apply Hfresh|].
      split; [done|].
      exists (pushed ++ [qpIdx s]). split; [by rewrite Hmiss, app_assoc|].
      intros i [Hi|Hi%list_elem_of_singleton]%elem_of_app.
      * destruct (Hpushed i Hi) as (Hv & Hin & Hz).
        split; [apply elem_of_app; by left|done].
      * subst i. split; [apply elem_of_app; right; by left|].
        split; [by eapply lookup_lt_Some|by apply Hfresh].
  - apply deactivate_spec in Hs as (t & _ & _ & _ & _ & (Hq & Hi & _ & Ho & Hm) & _).
    unfold results_inv, visited. rewrite Hq, Hi, Ho, Hm. eauto 10.
Qed.

Lemma results_inv_run e s0 s fuel :
  sweep_init qPoints uvs tris out0 missing0 = Ok (e, s0) →
  run' fuel e s0 = Returned s → results_inv' e s.
Proof.
  intros Hinit Hrun.
  eapply (run_invariant _ _ _ _ _ (results_inv' e)); [|by apply results_inv_init|done].
  intros s1 st. apply results_inv_step.
  apply sweep_init_spec in Hinit as (_ & -> & _). apply argsort_NoDup.
Qed.

Lemma hit_true e q t :
  hit pointInTri uvs tris e q t = Ok true →
  ∃ a b c, corner uvs tris OobScan (3 * t) = Ok a ∧
           corner uvs tris OobScan (3 * t + 1) = Ok b ∧
           corner uvs tris OobScan (3 * t + 2) = Ok c ∧
           pointInTri q a b c = true.
Proof.
  unfold hit. intros Hh. ok_inv Hh; try discriminate. eauto 10.
Qed.
End SweepResults.

(** ** The loop stops, and where the cursors run over *)

Section SweepStops.
Context {F : Type} `{Float64 F}.
Variable pointInTri : uv_t F → uv_t F → uv_t F → uv_t F → bool.
Variable wild : option F.
Variables (qPoints uvs : list (uv_t F)) (tris : list nat).

Local Abbreviation step' := (step pointInTri wild qPoints uvs tris).
Local Abbreviation run' := (run pointInTri wild qPoints uvs tris).

Lemma rounds_left_step e s s' :
  step' e s = Ok (Continue s') → rounds_left e s' < rounds_left e s.
Proof.
  intros Hs. unfold rounds_left.
  apply step_cases in Hs as [(_ & s1 & [= <-] & Hs)|[[_ Hs]|(_ & s1 & [= <-] & Hs)]].
  - apply activate_spec in Hs as (t & Ht%lookup_lt_Some & -> & -> & _ & (-> & _) & _).
    lia.
  - apply test_spec in Hs as (q & _ & Hq & Hn & Hx & _ & _ & Hend). simpl in *.
    destruct Hend as (_ & Hl%lookup_lt_Some & _). rewrite Hq, Hn, Hx. lia.
  - apply deactivate_spec in Hs as (t & Ht%lookup_lt_Some & -> & -> & _ & (-> & _) & _).
    lia.
Qed.

Lemma run_stops e fuel s :
  rounds_left e s < fuel → run' fuel e s ≠ OutOfFuel.
Proof.
  revert s. induction fuel as [|fuel IH]; simpl; intros s Hlt; [lia|].
  destruct (step' e s) as [[s1|s1]|f] eqn:Hs; [|done|done].
  apply IH. apply rounds_left_step in Hs. lia.
Qed.

(** The fuel of [sweep] is never used up: a call ends by the [break] of
    line 125 or by an access outside a vector. *)
Lemma sweep_stops out0 missing0 barys0 :
  sweep pointInTri wild qPoints uvs tris out0 missing0 barys0 ≠ OutOfFuel.
Proof.
  unfold sweep.
  destruct (sweep_init _ _ _ _ _) as [[e s]|f] eqn:Hinit; [|done].
  assert (run' (sweep_fuel uvs tris) e s ≠ OutOfFuel) as Hne.
  { apply run_stops. unfold rounds_left, sweep_fuel.
    apply sweep_init_spec in Hinit
      as (Hqpx & -> & -> & -> & Hmn & Hmx & _ & -> & -> & -> & _).
    rewrite !argsort_length, Hmn, Hmx, Hqpx, length_fmap.
    unfold uv_t. lia. }
  by destruct (run' _ e s).
Qed.

Lemma sweep_Returned out0 missing0 barys0 o m b :
  sweep pointInTri wild qPoints uvs tris out0 missing0 barys0 = Returned (o, m, b) →
  ∃ e s0 s,
    sweep_init qPoints uvs tris out0 missing0 = Ok (e, s0) ∧
    run' (sweep_fuel uvs tris) e s0 = Returned s ∧
    o = out s ∧ m = missing s ∧ b = barys0.
Proof.
  unfold sweep.
  destruct (sweep_init _ _ _ _ _) as [[e s0]|f] eqn:Hinit; [|done].
  destruct (run' _ e s0) as [s| |] eqn:Hrun; [|done|done].
  intros [= <- <- <-]. by exists e, s0, s.
Qed.

(** The run returns from the Test action that uses up the query cursor. *)
Lemma run_Returned_cursor e fuel s s' :
  run' fuel e s = Returned s' → qpSIdx s' = length (qpSIdxs e).
Proof.
  revert s. induction fuel as [|fuel IH]; simpl; intros s Hrun; [done|].
  destruct (step' e s) as [[s1|s1]|f] eqn:Hs; [by eapply IH| |done].
  injection Hrun as <-.
  apply step_cases in Hs as [(_ & ? & [=] & _)|[[_ Hs]|(_ & ? & [=] & _)]].
  apply test_spec in Hs as (q & _ & Hq & _ & _ & _ & _ & Hend). simpl in *. lia.
Qed.

(** Once Deactivate has taken the last element of its permutation, the
    next round is Deactivate again and loads [mxSIdxs[mxSIdxs.size()]]. *)
Lemma xmax_cursor_overrun e s s' :
  choose s = Deactivate →
  deactivate e s = Ok s' →
  S (mxSIdx s) = length (mxSIdxs e) →
  step' e s' = Err OobXmaxCursor.
Proof.
  intros Hch Hs Hlast.
  apply deactivate_spec in Hs as (t & _ & Hmx & _ & Hmn & (_ & _ & Hqp & _) & Hkeep & _).
  specialize (Hkeep Hlast).
  unfold step. replace (choose s') with Deactivate
    by (unfold choose in *; by rewrite Hmn, Hkeep, Hqp).
  unfold deactivate.
  replace (rd OobXmaxCursor (mxSIdxs e) (mxSIdx s')) with (@Err nat OobXmaxCursor); [done|].
  symmetry. apply rd_Err. split; [|done].
  apply lookup_ge_None. lia.
Qed.

(** The load of line 101 is outside [mxSIdxs], so it is [wild] that
    decides what it gives. *)
Lemma sentinel_load_wild e :
  (N.of_nat (length (mxSIdxs e)) < 2 ^ 64)%N →
  sentinel_load wild e =
    match wild with
    | Some w => Ok w
    | None => Err OobSentinel
    end.
Proof. intros Hlen. unfold sentinel_load. by rewrite rdN_neg1. Qed.
End SweepStops.

(** ** What a returned call hands back *)

Section SweepOutputs.
Context {F : Type} `{Float64 F}.
Variable pointInTri : uv_t F → uv_t F → uv_t F → uv_t F → bool.
Variable wild : option F.
Variables (qPoints uvs : list (uv_t F)) (tris : list nat).

Local Abbreviation sweep' := (sweep pointInTri wild qPoints uvs tris).

(** Whatever the loop pushed comes after the entries line 76 put there. *)
Lemma sweep_missing_prefilled out0 missing0 barys0 o m b :
  sweep pointInTri wild qPoints uvs tris out0 missing0 barys0
    = Returned (o, m, b) →
  take (length qPoints) m = resize (length qPoints) 0 missing0.
Proof.
  intros (e & s0 & s & Hinit & Hrun & _ & -> & _)%sweep_Returned.
  destruct (results_inv_run _ _ _ _ _ _ _ _ _ _ _ Hinit Hrun)
    as (_ & _ & _ & _ & pushed & -> & _).
  by rewrite take_app_length' by (by rewrite length_resize).
Qed.

(** The Test action ran once for every element of [uvs]. *)
Lemma sweep_tests_per_vertex out0 missing0 e s0 s :
  sweep_init qPoints uvs tris out0 missing0 = Ok (e, s0) →
  run pointInTri wild qPoints uvs tris (sweep_fuel uvs tris) e s0 = Returned s →
  qpx e = fst <$> uvs ∧ qpSIdx s = length uvs.
Proof.
  intros Hinit Hrun. apply run_Returned_cursor in Hrun.
  apply sweep_init_spec in Hinit as (Hqpx & Hperm & _).
  split; [done|]. by rewrite Hrun, Hperm, argsort_length, Hqpx, length_fmap.
Qed.

(** A call that returns hands back [barys] as it received it: no entry
    is produced for any query point. *)
Lemma sweep_barys_untouched out0 missing0 barys0 o m b :
  sweep' out0 missing0 barys0 = Returned (o, m, b) → b = barys0.
Proof. by intros (e & s0 & s & _ & _ & _ & _ & ->)%sweep_Returned. Qed.

(** The case of a call entered with [out] empty: an entry of [out] other
    than 0 was written for a triangle that [pointInTri] accepted for that
    query point, and every index the loop pushed on [missing] reads 0 in
    [out]. *)
Lemma sweep_unresolved_reads_zero missing0 barys0 o m b :
  sweep' [] missing0 barys0 = Returned (o, m, b) →
  length o = length qPoints ∧
  (∀ i t, o !! i = Some t → t ≠ 0 →
     ∃ q a b c, qPoints !! i = Some q ∧
                corner uvs tris OobScan (3 * t) = Ok a ∧
                corner uvs tris OobScan (3 * t + 1) = Ok b ∧
                corner uvs tris OobScan (3 * t + 2) = Ok c ∧
                pointInTri q a b c = true) ∧
  (∀ i, i ∈ drop (length qPoints) m → o !! i = Some 0).
Proof.
  intros (e & s0 & s & Hinit & Hrun & -> & -> & _)%sweep_Returned.
  destruct (results_inv_run _ _ _ _ _ _ _ _ _ _ _ Hinit Hrun)
    as (_ & Hlen & _ & Hhit & pushed & Hm & Hpushed).
  rewrite resize_nil in Hhit, Hpushed.
  split; [done|]. split.
  - intros i t Hit Hne. destruct (Hhit i t Hit) as [Hz|(q & Hq & Hh)].
    + apply lookup_replicate in Hz as [-> _]. done.
    + apply hit_true in Hh as (a & b' & c & ?). exists q, a, b', c. tauto.
  - intros i Hi. rewrite Hm, drop_app_length' in Hi by (by rewrite length_resize).
    destruct (Hpushed i Hi) as (_ & Hlt & ->).
    by apply lookup_replicate_2.
Qed.
End SweepOutputs.

Section SweepOutputsAnyEntry.
Context {F : Type} `{Float64 F}.
Variable pointInTri : uv_t F → uv_t F → uv_t F → uv_t F → bool.
Variable wild : option F.
Variables (qPoints uvs : list (uv_t F)) (tris : list nat).

(** C10, amended.  Whatever [out] holds on entry: an entry of [out] that
    differs from what [out.resize] of line 75 left there was written for a
    triangle that [pointInTri] accepted for that query point; and for every
    index the loop pushed on [missing] the entry is what the resize left:
    the caller's value where [out] had one on entry, 0 where the resize
    added the place. *)
Theorem sweep_unwritten_keeps_resize out0 missing0 barys0 o m b :
  sweep pointInTri wild qPoints uvs tris out0 missing0 barys0
    = Returned (o, m, b) →
  length o = length qPoints ∧
  (∀ i t, o !! i = Some t →
     resize (length qPoints) 0 out0 !! i = Some t ∨
     ∃ q a b c, qPoints !! i = Some q ∧
                corner uvs tris OobScan (3 * t) = Ok a ∧
                corner uvs tris OobScan (3 * t + 1) = Ok b ∧
                corner uvs tris OobScan (3 * t + 2) = Ok c ∧
                pointInTri q a b c = true) ∧
  (∀ i, i ∈ drop (length qPoints) m →
     o !! i = resize (length qPoints) 0 out0 !! i ∧
     (i < length out0 → o !! i = out0 !! i) ∧
     (length out0 ≤ i → o !! i = Some 0)).
Proof.
  intros (e & s0 & s & Hinit & Hrun & -> & -> & _)%sweep_Returned.
  destruct (results_inv_run _ _ _ _ _ _ _ _ _ _ _ Hinit Hrun)
    as (_ & Hlen & _ & Hhit & pushed & Hm & Hpushed).
  split; [done|]. split.
  - intros i t Hit. destruct (Hhit i t Hit) as [Hz|(q & Hq & Hh)]; [by left|].
    right. apply hit_true in Hh as (a & b' & c & ?). exists q, a, b', c. tauto.
  - intros i Hi. rewrite Hm, drop_app_length' in Hi by (by rewrite length_resize).
    destruct (Hpushed i Hi) as (_ & Hlt & Hkeep).
    split; [done|]. split; intros Hi0; rewrite Hkeep.
    + by apply lookup_resize.
    + by apply lookup_resize_new.
Qed.
End SweepOutputsAnyEntry.

(** ** The fallback *)

Section FallbackFacts.
Context {F : Type} `{Float64 F}.

Lemma closest_rounds_pick (a d : list (uv_t F)) (dr2 : list F) pt l i0 v0 :
  Forall (λ j, j < length a) l →
  length d = length a → length dr2 = length a →
  ∃ i v, foldl (closest_round a d dr2 pt) (Ok (i0, v0)) l = Ok (i, v) ∧
         (i = i0 ∨ i ∈ l).
Proof.
  intros Hl Hd Hr. revert i0 v0.
  induction Hl as [|j l Hj _ IH]; intros i0 v0; simpl.
  { exists i0, v0. by split; [|left]. }
  destruct (lookup_lt_is_Some_2 a j Hj) as [aa Haa].
  destruct (lookup_lt_is_Some_2 d j ltac:(lia)) as [dd Hdd].
  destruct (lookup_lt_is_Some_2 dr2 j ltac:(lia)) as [r2 Hr2].
  unfold rd. rewrite Haa, Hdd, Hr2. simpl.
  destruct (flt _ v0).
  - destruct (IH j (edge_l2 aa dd r2 pt)) as (i & v & -> & Hi).
    exists i, v. split; [done|right].
    destruct Hi as [->|Hi]; [by left|by right].
  - destruct (IH i0 v0) as (i & v & -> & Hi).
    exists i, v. split; [done|].
    destruct Hi as [->|Hi]; [by left|right; by right].
Qed.

(** The scan answers with an edge index, provided there is an edge. *)
Lemma closestBruteForceEdge_bound (a d : list (uv_t F)) (dr2 : list F) pt :
  a ≠ [] → length d = length a → length dr2 = length a →
  ∃ i, closestBruteForceEdge a d dr2 pt = Ok i ∧ i < length a.
Proof.
  intros Ha Hd Hr. unfold closestBruteForceEdge, closest_scan.
  destruct (closest_rounds_pick a d dr2 pt (seq 0 (length a)) 0 fdbl_max)
    as (i & v & -> & Hi); [|done|done|].
  { apply Forall_seq. intros j Hj. lia. }
  exists i. split; [done|].
  destruct Hi as [->|Hi%elem_of_seq]; [|lia].
  destruct a; [done|simpl; lia].
Qed.

Lemma missing_rounds (uvs starts bDiff : list (uv_t F)) (bLens2 : list F)
    (borderToTri missing triIdxs : list nat) :
  starts ≠ [] →
  length bDiff = length starts → length bLens2 = length starts →
  length borderToTri = length starts →
  Forall (λ m, m < length uvs ∧ m < length triIdxs) missing →
  ∃ triIdxs',
    foldl (missing_round uvs starts bDiff bLens2 borderToTri) (Ok triIdxs)
      missing = Ok triIdxs' ∧
    length triIdxs' = length triIdxs ∧
    (∀ m, m ∈ missing →
       ∃ e, e < length starts ∧ triIdxs' !! m = borderToTri !! e) ∧
    (∀ i, i ∉ missing → triIdxs' !! i = triIdxs !! i).
Proof.
  intros Hne Hd Hr Hb Hm. revert triIdxs Hm.
  induction missing as [|m missing IH]; intros triIdxs Hm; simpl.
  { exists triIdxs. split; [done|]. split; [done|]. split; [|done].
    intros m Hin. by apply elem_of_nil in Hin. }
  apply Forall_cons in Hm as [[Hmu Hmt] Hm].
  destruct (lookup_lt_is_Some_2 uvs m Hmu) as [mp Hmp].
  destruct (closestBruteForceEdge_bound starts bDiff bLens2 mp Hne Hd Hr)
    as (e & He & Hlt).
  destruct (lookup_lt_is_Some_2 borderToTri e ltac:(lia)) as [t Ht].
  unfold rd. rewrite Hmp. simpl. rewrite He. simpl. rewrite Ht. simpl.
  rewrite decide_True by done.
  destruct (IH (<[m := t]> triIdxs)) as (tri' & -> & Hlen & Hin & Hout).
  { eapply Forall_impl; [exact Hm|]. intros m' [? ?].
    by rewrite length_insert. }
  exists tri'. split; [done|]. split; [by rewrite Hlen, length_insert|]. split.
  - intros m' Hm'. destruct (decide (m' ∈ missing)) as [Hi|Hni]; [by apply Hin|].
    apply elem_of_cons in Hm' as [->|?]; [|done].
    exists e. split; [done|].
    by rewrite (Hout m Hni), list_lookup_insert_eq, Ht.
  - intros i Hi%not_elem_of_cons. destruct Hi as [Hne' Hni].
    by rewrite (Hout i Hni), list_lookup_insert_ne.
Qed.

(** C7.  With at least one boundary edge, one [borderToTri] entry per
    edge and all indices in range, [handleMissing] returns, and the entry
    it leaves for each missing index is [borderToTri[e]] for an edge
    index [e] below the number of boundary edges; the other entries keep
    their value. *)
Theorem handleMissing_adjacent (uvs : list (uv_t F)) (borders : list edge_t)
    (missing borderToTri triIdxs : list nat) :
  borders ≠ [] →
  length borderToTri = length borders →
  Forall (λ b : edge_t, b.1 < length uvs ∧ b.2 < length uvs) borders →
  Forall (λ m, m < length uvs ∧ m < length triIdxs) missing →
  ∃ triIdxs',
    handleMissing uvs borders missing borderToTri triIdxs = Ok triIdxs' ∧
    length triIdxs' = length triIdxs ∧
    (∀ m, m ∈ missing →
       ∃ e, e < length borders ∧ triIdxs' !! m = borderToTri !! e) ∧
    (∀ i, i ∉ missing → triIdxs' !! i = triIdxs !! i).
Proof.
  intros Hne Hb Hborders Hm. unfold handleMissing.
  destruct (mapR_total (border_row uvs) borders) as [rows Hrows].
  { eapply Forall_impl; [exact Hborders|]. intros [i j] [Hi Hj]. simpl in *.
    destruct (lookup_lt_is_Some_2 uvs i Hi) as [uv1 H1].
    destruct (lookup_lt_is_Some_2 uvs j Hj) as [uv2 H2].
    unfold border_row, rd. simpl. rewrite H1, H2. simpl. by eexists. }
  rewrite Hrows. simpl.
  pose proof (mapR_length _ _ _ Hrows) as Hlen. rewrite <- Hlen in *.
  replace (length rows) with (length ((λ r, r.1.1) <$> rows))
    by apply length_fmap.
  apply missing_rounds; rewrite ?length_fmap; try done.
  destruct rows; [|done]. destruct borders; done.
Qed.
End FallbackFacts.

(** ** No call returns without the load of line 101 *)

Lemma Q_float_order : FloatOrder Q.
Proof.
  split; simpl.
  - intros x y. rewrite !Qle_bool_iff.
    destruct (Qlt_le_dec x y) as [Hlt|Hle]; [left; by apply Qlt_le_weak|by right].
  - intros x y z. rewrite !Qle_bool_iff. apply Qle_trans.
  - done.
Qed.

Section SweepSentinel.
Context {F : Type} `{FloatOrder F}.
Variable pointInTri : uv_t F → uv_t F → uv_t F → uv_t F → bool.
Variables (qPoints uvs : list (uv_t F)) (tris : list nat).

Local Abbreviation step' := (step pointInTri None qPoints uvs tris).
Local Abbreviation run' := (run pointInTri None qPoints uvs tris).

Lemma fle_refl (x : F) : fle x x = true.
Proof. by destruct (fle_total x x). Qed.

Lemma flt_false_fle (x y : F) : flt x y = false → fle y x = true.
Proof. rewrite flt_not_fle. by intros ->%negb_false_iff. Qed.

Lemma flt_true_fle (x y : F) : flt x y = true → fle x y = true.
Proof.
  rewrite flt_not_fle. intros Hn%negb_true_iff.
  destruct (fle_total x y) as [?|Hyx]; [done|congruence].
Qed.

Lemma fmin_le_l (a b : F) : fle (fmin a b) a = true.
Proof.
  unfold fmin. destruct (flt b a) eqn:E; [by apply flt_true_fle|apply fle_refl].
Qed.

Lemma fmin_le_r (a b : F) : fle (fmin a b) b = true.
Proof.
  unfold fmin. destruct (flt b a) eqn:E; [apply fle_refl|by apply flt_false_fle].
Qed.

Lemma flt_swo : StrictWeakOrder (flt (F := F)).
Proof.
  split.
  - intros x. by rewrite flt_not_fle, fle_refl.
  - intros x y z. rewrite !flt_not_fle, !negb_true_iff. intros Hyx Hzy.
    destruct (fle z x) eqn:Hzx; [|done].
    destruct (fle_total x y) as [Hxy|?]; [|congruence].
    by rewrite (fle_trans z x y Hzx Hxy) in Hzy.
  - intros x y z. rewrite !flt_not_fle, !negb_false_iff. intros Hyx Hxy Hzy Hyz.
    split; eapply fle_trans; eauto.
Qed.

(** The key at the last place of [argsort] is a largest one. *)
Lemma argsort_last_max (v : list F) k i x j y :
  S k = length v →
  argsort flt v !! k = Some i → v !! i = Some x →
  v !! j = Some y → fle y x = true.
Proof.
  intros Hk Hi Hx Hy.
  assert (j ∈ argsort flt v) as Hj
    by (apply argsort_elem; by eapply lookup_lt_Some).
  apply list_elem_of_lookup in Hj as [k' Hk'].
  assert (k' < length (argsort flt v)) as Hlt by by eapply lookup_lt_Some.
  rewrite argsort_length in Hlt.
  destruct (decide (k' = k)) as [->|Hne].
  { assert (j = i) as -> by congruence.
    assert (y = x) as -> by congruence. apply fle_refl. }
  pose proof (argsort_sorted flt (StrictWeakOrder0 := flt_swo) v) as Hs.
  destruct (StronglySorted_lookup _ _ k' k j i Hs ltac:(lia) Hk' Hi)
    as (y' & x' & Hy' & Hx' & Hnlt & _).
  assert (y' = y) as -> by congruence. assert (x' = x) as -> by congruence.
  by apply flt_false_fle.
Qed.

(** Every xmin is at most the x of some vertex. *)
Lemma sweep_init_xmns out0 missing0 e s i x :
  sweep_init qPoints uvs tris out0 missing0 = Ok (e, s) →
  xmns e !! i = Some x →
  ∃ j y, qpx e !! j = Some y ∧ fle x y = true.
Proof.
  unfold sweep_init. intros Hs Hx.
  apply bind_Ok in Hs as (bs & Hbs & Hs). ok_inv Hs. subst e s. simpl in *.
  apply list_lookup_fmap_Some in Hx as (b & -> & Hb).
  assert (seq 0 (numTris tris) !! i = Some i) as Hi.
  { apply lookup_seq. split; [done|].
    apply mapR_length in Hbs. rewrite length_seq in Hbs.
    rewrite <- Hbs. by eapply lookup_lt_Some. }
  destruct (mapR_lookup _ _ _ _ _ Hbs Hi) as (b' & Hb' & Hbox).
  assert (b' = b) as -> by congruence.
  unfold bbox in Hbox. apply bind_Ok in Hbox as (p0 & Hp0 & Hbox).
  ok_inv Hbox. subst b. simpl.
  unfold corner in Hp0. apply bind_Ok in Hp0 as (j & _ & Hj%rd_Ok).
  exists j, p0.1. split; [|apply fmin_le_l].
  apply list_lookup_fmap_Some. by exists p0.
Qed.

Lemma cursors_inv_init out0 missing0 e s :
  sweep_init qPoints uvs tris out0 missing0 = Ok (e, s) → cursors_inv e s.
Proof.
  unfold sweep_init. intros Hs.
  apply bind_Ok in Hs as (bs & Hbs & Hs).
  apply bind_Ok in Hs as (i1 & Hi1%rd_Ok & Hs).
  apply bind_Ok in Hs as (i2 & Hi2%rd_Ok & Hs).
  apply bind_Ok in Hs as (i3 & Hi3%rd_Ok & Hs).
  apply bind_Ok in Hs as (x1 & Hx1%rd_Ok & Hs).
  apply bind_Ok in Hs as (x2 & Hx2%rd_Ok & Hs).
  apply bind_Ok in Hs as (x3 & Hx3%rd_Ok & Hs).
  injection Hs as <- <-. by repeat split.
Qed.

Lemma activate_trapped e s s' :
  (N.of_nat (length (mxSIdxs e)) < 2 ^ 64)%N →
  activate None tris e s = Ok s' →
  mnSIdxs e !! mnSIdx s' = Some (mnIdx s') ∧ xmns e !! mnIdx s' = Some (mn s').
Proof.
  intros Hlen. unfold activate. intros Hs.
  apply bind_Ok in Hs as (t & _ & Hs).
  apply bind_Ok in Hs as (act & _ & Hs).
  apply bind_Ok in Hs as (sk & _ & Hs).
  destruct (decide _) as [Hne|Heq] in Hs.
  - apply bind_Ok in Hs as (idx & Hidx%rd_Ok & Hs).
    apply bind_Ok in Hs as (x & Hx%rd_Ok & Hs).
    injection Hs as <-. simpl. by destruct (negb act && negb sk).
  - rewrite sentinel_load_wild in Hs by done. done.
Qed.

Lemma test_keeps_bounds e s st :
  test pointInTri qPoints uvs tris e s = Ok st →
  mnIdx (state_of st) = mnIdx s ∧ mn (state_of st) = mn s.
Proof.
  unfold test. intros Hs.
  apply bind_Ok in Hs as (q & _ & Hs).
  apply bind_Ok in Hs as (found & _ & Hs).
  destruct (decide _) in Hs.
  - injection Hs as <-. by destruct found.
  - ok_inv Hs. subst st. by destruct found.
Qed.

Lemma deactivate_keeps_xmin (e : env F) s s' :
  deactivate e s = Ok s' → mnIdx s' = mnIdx s.
Proof.
  unfold deactivate. intros Hs.
  apply bind_Ok in Hs as (t & _ & Hs).
  apply bind_Ok in Hs as (act & _ & Hs).
  apply bind_Ok in Hs as (sk & _ & Hs).
  destruct (decide _) in Hs; ok_inv Hs; subst s'; simpl;
    by destruct (act && negb sk).
Qed.

Lemma cursors_inv_step e s s' :
  (N.of_nat (length (mxSIdxs e)) < 2 ^ 64)%N →
  cursors_inv e s → step' e s = Ok (Continue s') → cursors_inv e s'.
Proof.
  intros Hlen (Hmi & Hmn & Hqi & Hqp) Hs. unfold cursors_inv.
  apply step_cases in Hs as [(_ & s1 & [= <-] & Hs)|[[_ Hs]|(_ & s1 & [= <-] & Hs)]].
  - destruct (activate_trapped _ _ _ Hlen Hs) as [Hi Hx].
    apply activate_spec in Hs as (t & _ & _ & _ & _ & (Hk & Hidx & Hq & _) & _).
    rewrite Hk, Hidx, Hq. by repeat split.
  - destruct (test_keeps_bounds _ _ _ Hs) as [Hi Hx].
    apply test_spec in Hs as (q & _ & Hn & Hk & _ & _ & _ & Hend). simpl in *.
    destruct Hend as (_ & Hidx & Hq). rewrite Hk, Hi, Hx, Hn. by repeat split.
  - pose proof (deactivate_keeps_xmin _ _ _ Hs) as Hi.
    apply deactivate_spec in Hs as (t & _ & _ & Hk & Hx & (Hk' & Hidx & Hq & _) & _).
    rewrite Hk, Hi, Hx, Hk', Hidx, Hq. by repeat split.
Qed.

(** With the xmin cursor still on an element, the Test action for the
    last query index is never chosen: Activate goes first. *)
Lemma no_break_before_sentinel out0 missing0 e s0 s s' :
  sweep_init qPoints uvs tris out0 missing0 = Ok (e, s0) →
  cursors_inv e s → step' e s ≠ Ok (Break s').
Proof.
  intros Hinit (Hmi & Hmn & Hqi & Hqp) Hs.
  apply step_cases in Hs as [(_ & ? & [=] & _)|[[Hch Hs]|(_ & ? & [=] & _)]].
  apply test_spec in Hs as (q & _ & _ & _ & _ & _ & _ & Hend). simpl in Hend.
  destruct (sweep_init_xmns _ _ _ _ _ _ Hinit Hmn) as (j & y & Hy & Hle).
  pose proof Hinit as (Hqpx & Hperm & _)%sweep_init_spec.
  assert (fle y (qp s) = true) as Hmax.
  { rewrite Hperm in Hqi, Hend. rewrite argsort_length in Hend.
    by eapply (argsort_last_max (qpx e)). }
  pose proof (fle_trans _ _ _ Hle Hmax) as Hmq.
  unfold choose in Hch. rewrite Hmq, andb_true_r in Hch.
  destruct (fle (mn s) (mx s)) eqn:Hmm; [done|].
  destruct (fle (qp s) (mx s)) eqn:Hqm; [|done].
  by rewrite (fle_trans _ _ _ Hmq Hqm) in Hmm.
Qed.

Lemma run_trapped_no_return out0 missing0 e s0 fuel s s' :
  sweep_init qPoints uvs tris out0 missing0 = Ok (e, s0) →
  (N.of_nat (length (mxSIdxs e)) < 2 ^ 64)%N →
  cursors_inv e s → run' fuel e s ≠ Returned s'.
Proof.
  intros Hinit Hlen. revert s.
  induction fuel as [|fuel IH]; simpl; intros s Hinv; [done|].
  destruct (step' e s) as [[s1|s1]|f] eqn:Hs; [| |done].
  - apply IH. by eapply cursors_inv_step.
  - by destruct (no_break_before_sentinel _ _ _ _ _ s1 Hinit Hinv).
Qed.

(** When the load of line 101 is trapped, no call of [sweep] returns,
    whatever the input: every call that gets as far as its last query index
    has used up the xmin cursor before. *)
Proposition sweep_trapped_never_returns out0 missing0 barys0 r :
  (N.of_nat (numTris tris) < 2 ^ 64)%N →
  sweep pointInTri None qPoints uvs tris out0 missing0 barys0 ≠ Returned r.
Proof.
  intros Hlen Hr. destruct r as [[o m] b].
  apply sweep_Returned in Hr as (e & s0 & s & Hinit & Hrun & _).
  eapply run_trapped_no_return; [exact Hinit| |by eapply cursors_inv_init|exact Hrun].
  apply sweep_init_spec in Hinit as (_ & _ & -> & _ & _ & Hmx & _).
  by rewrite argsort_length, Hmx.
Qed.
End SweepSentinel.

(** ** No call returns when a vertex lies to the right of every triangle *)

Section SweepFarVertex.
Context {F : Type} `{FloatOrder F}.
Variable pointInTri : uv_t F → uv_t F → uv_t F → uv_t F → bool.
Variable wild : option F.
Variables (qPoints uvs : list (uv_t F)) (tris : list nat).

Local Abbreviation step' := (step pointInTri wild qPoints uvs tris).
Local Abbreviation run' := (run pointInTri wild qPoints uvs tris).

Lemma fmax_cases (a b : F) : fmax a b = a ∨ fmax a b = b.
Proof. unfold fmax. destruct (flt a b); auto. Qed.

(** Every xmax is the x of a corner of a triangle. *)
Lemma sweep_init_xmxs out0 missing0 e s i x :
  sweep_init qPoints uvs tris out0 missing0 = Ok (e, s) →
  xmxs e !! i = Some x →
  ∃ k j q, tris !! k = Some j ∧ uvs !! j = Some q ∧ x = q.1.
Proof.
  unfold sweep_init. intros Hs Hx.
  apply bind_Ok in Hs as (bs & Hbs & Hs). ok_inv Hs. subst e s. simpl in *.
  apply list_lookup_fmap_Some in Hx as (b & -> & Hb).
  assert (seq 0 (numTris tris) !! i = Some i) as Hi.
  { apply lookup_seq. split; [done|].
    apply mapR_length in Hbs. rewrite length_seq in Hbs.
    rewrite <- Hbs. by eapply lookup_lt_Some. }
  destruct (mapR_lookup _ _ _ _ _ Hbs Hi) as (b' & Hb' & Hbox).
  assert (b' = b) as -> by congruence.
  unfold bbox in Hbox.
  apply bind_Ok in Hbox as (p0 & Hp0 & Hbox).
  apply bind_Ok in Hbox as (p1 & Hp1 & Hbox).
  apply bind_Ok in Hbox as (p2 & Hp2 & Hbox).
  injection Hbox as <-. simpl.
  unfold corner in Hp0, Hp1, Hp2.
  apply bind_Ok in Hp0 as (j0 & Hk0%rd_Ok & Hj0%rd_Ok).
  apply bind_Ok in Hp1 as (j1 & Hk1%rd_Ok & Hj1%rd_Ok).
  apply bind_Ok in Hp2 as (j2 & Hk2%rd_Ok & Hj2%rd_Ok).
  destruct (fmax_cases p0.1 (fmax p1.1 p2.1)) as [->| ->]; [by eauto 10|].
  destruct (fmax_cases p1.1 p2.1) as [->| ->]; eauto 10.
Qed.

Lemma xmax_inv_init out0 missing0 e s :
  sweep_init qPoints uvs tris out0 missing0 = Ok (e, s) → xmax_inv e s.
Proof.
  unfold sweep_init. intros Hs.
  apply bind_Ok in Hs as (bs & Hbs & Hs).
  apply bind_Ok in Hs as (i1 & Hi1%rd_Ok & Hs).
  apply bind_Ok in Hs as (i2 & Hi2%rd_Ok & Hs).
  apply bind_Ok in Hs as (i3 & Hi3%rd_Ok & Hs).
  apply bind_Ok in Hs as (x1 & Hx1%rd_Ok & Hs).
  apply bind_Ok in Hs as (x2 & Hx2%rd_Ok & Hs).
  apply bind_Ok in Hs as (x3 & Hx3%rd_Ok & Hs).
  injection Hs as <- <-. by repeat split.
Qed.

Lemma activate_keeps_xmax e s s' :
  activate wild tris e s = Ok s' → mxIdx s' = mxIdx s.
Proof.
  unfold activate. intros Hs.
  apply bind_Ok in Hs as (t & _ & Hs).
  apply bind_Ok in Hs as (act & _ & Hs).
  apply bind_Ok in Hs as (sk & _ & Hs).
  destruct (decide _) in Hs; ok_inv Hs; subst s'; simpl;
    by destruct (negb act && negb sk).
Qed.

Lemma test_keeps_xmax e s st :
  test pointInTri qPoints uvs tris e s = Ok st →
  mxIdx (state_of st) = mxIdx s ∧ mx (state_of st) = mx s.
Proof.
  unfold test. intros Hs.
  apply bind_Ok in Hs as (q & _ & Hs).
  apply bind_Ok in Hs as (found & _ & Hs).
  destruct (decide _) in Hs.
  - injection Hs as <-. by destruct found.
  - ok_inv Hs. subst st. by destruct found.
Qed.

Lemma deactivate_xmax (e : env F) s s' :
  deactivate e s = Ok s' →
  xmxs e !! mxIdx s = Some (mx s) → xmxs e !! mxIdx s' = Some (mx s').
Proof.
  unfold deactivate. intros Hs Hmx.
  apply bind_Ok in Hs as (t & _ & Hs).
  apply bind_Ok in Hs as (act & _ & Hs).
  apply bind_Ok in Hs as (sk & _ & Hs).
  destruct (decide _) in Hs.
  - apply bind_Ok in Hs as (idx & _ & Hs).
    apply bind_Ok in Hs as (x & Hx%rd_Ok & Hs).
    injection Hs as <-. done.
  - injection Hs as <-. simpl. by destruct (act && negb sk).
Qed.

Lemma xmax_inv_step e s s' :
  xmax_inv e s → step' e s = Ok (Continue s') → xmax_inv e s'.
Proof.
  intros (Hmx & Hqi & Hqp) Hs. unfold xmax_inv.
  apply step_cases in Hs as [(_ & s1 & [= <-] & Hs)|[[_ Hs]|(_ & s1 & [= <-] & Hs)]].
  - pose proof (activate_keeps_xmax _ _ _ Hs) as Hi.
    apply activate_spec in Hs as (t & _ & _ & _ & Hx & (Hk & Hidx & Hq & _) & _).
    rewrite Hi, Hx, Hk, Hidx, Hq. by repeat split.
  - destruct (test_keeps_xmax _ _ _ Hs) as [Hi Hx].
    apply test_spec in Hs as (q & _ & Hn & _ & _ & _ & _ & Hend). simpl in *.
    destruct Hend as (_ & Hidx & Hq). rewrite Hi, Hx, Hn. by repeat split.
  - pose proof (deactivate_xmax _ _ _ Hs Hmx) as Hx.
    apply deactivate_spec in Hs as (t & _ & _ & _ & _ & (Hk & Hidx & Hq & _) & _).
    rewrite Hk, Hidx, Hq. by repeat split.
Qed.

Lemma no_break_with_far_vertex out0 missing0 e s0 s s' p :
  far_vertex uvs tris p →
  sweep_init qPoints uvs tris out0 missing0 = Ok (e, s0) →
  xmax_inv e s → step' e s ≠ Ok (Break s').
Proof.
  intros [Hp Hfar] Hinit (Hmx & Hqi & Hqp) Hs.
  apply step_cases in Hs as [(_ & ? & [=] & _)|[[Hch Hs]|(_ & ? & [=] & _)]].
  apply test_spec in Hs as (q & _ & _ & _ & _ & _ & _ & Hend). simpl in Hend.
  destruct (sweep_init_xmxs _ _ _ _ _ _ Hinit Hmx) as (k & j & c & Hk & Hj & Hc).
  specialize (Hfar k j c Hk Hj). rewrite <- Hc in Hfar.
  pose proof Hinit as (Hqpx & Hperm & _)%sweep_init_spec.
  apply list_elem_of_lookup in Hp as [jp Hjp].
  assert (fle p.1 (qp s) = true) as Hmax.
  { rewrite Hperm in Hqi, Hend. rewrite argsort_length in Hend.
    eapply (argsort_last_max (qpx e)); [done|done|done|].
    rewrite Hqpx. apply list_lookup_fmap_Some. by exists p. }
  assert (fle (qp s) (mx s) = true) as Hqm.
  { unfold choose in Hch. destruct (_ && _) in Hch; [done|].
    by destruct (fle (qp s) (mx s)). }
  rewrite flt_not_fle, (fle_trans _ _ _ Hmax Hqm) in Hfar. done.
Qed.

Lemma run_far_vertex_no_return out0 missing0 e s0 fuel s s' p :
  far_vertex uvs tris p →
  sweep_init qPoints uvs tris out0 missing0 = Ok (e, s0) →
  xmax_inv e s → run' fuel e s ≠ Returned s'.
Proof.
  intros Hp Hinit. revert s.
  induction fuel as [|fuel IH]; simpl; intros s Hinv; [done|].
  destruct (step' e s) as [[s1|s1]|f] eqn:Hs; [| |done].
  - apply IH. by eapply xmax_inv_step.
  - by destruct (no_break_with_far_vertex _ _ _ _ _ s1 p Hp Hinit Hinv).
Qed.

(** With a vertex to the right of every triangle no call of [sweep]
    returns, whatever the load of line 101 gives: the last sweep position
    is beyond every xmax, where neither Activate nor Test applies. *)
Proposition sweep_far_vertex_never_returns out0 missing0 barys0 p r :
  far_vertex uvs tris p →
  sweep pointInTri wild qPoints uvs tris out0 missing0 barys0 ≠ Returned r.
Proof.
  intros Hp Hr. destruct r as [[o m] b].
  apply sweep_Returned in Hr as (e & s0 & s & Hinit & Hrun & _).
  eapply run_far_vertex_no_return; [exact Hp|exact Hinit| |exact Hrun].
  by eapply xmax_inv_init.
Qed.
End SweepFarVertex.

(** ** Concrete runs *)

(** In the runs that return, the load of line 101 is taken to give the
    largest xmax, the number [xmxs[mxSIdxs.back()]] holds. *)

Lemma handleMissing_adjacent_witness :
  edges_borders ≠ [] ∧
  length [7; 8] = length edges_borders ∧
  Forall (λ b : edge_t, b.1 < length edges_uvs ∧ b.2 < length edges_uvs)
    edges_borders ∧
  Forall (λ m, m < length edges_uvs ∧ m < length [0; 0; 0; 0; 0]) [4] ∧
  ∃ triIdxs',
    handleMissing edges_uvs edges_borders [4] [7; 8] [0; 0; 0; 0; 0]
      = Ok triIdxs' ∧
    length triIdxs' = length [0; 0; 0; 0; 0] ∧
    (∀ m, m ∈ [4] →
       ∃ e, e < length edges_borders ∧ triIdxs' !! m = [7; 8] !! e) ∧
    (∀ i, i ∉ [4] → triIdxs' !! i = [0; 0; 0; 0; 0] !! i).
Proof.
  assert (edges_borders ≠ []) as H1 by discriminate.
  assert (length [7; 8] = length edges_borders) as H2 by reflexivity.
  assert (Forall (λ b : edge_t, b.1 < length edges_uvs ∧ b.2 < length edges_uvs)
            edges_borders) as H3
    by (repeat constructor; simpl; lia).
  assert (Forall (λ m, m < length edges_uvs ∧ m < length [0; 0; 0; 0; 0]) [4])
    as H4 by (repeat constructor; simpl; lia).
  split; [exact H1|]. split; [exact H2|]. split; [exact H3|]. split; [exact H4|].
  exact (handleMissing_adjacent edges_uvs edges_borders [4] [7; 8]
           [0; 0; 0; 0; 0] H1 H2 H3 H4).
Defined.

Lemma sweep_active_set_agrees_witness :
  sweep_init islands_queries islands_uvs islands_tris [] []
    = Ok (islands_env, islands_start) ∧
  rtc (next pointInTri_exact (Some 11%Q) islands_queries islands_uvs
         islands_tris islands_env) islands_start islands_end ∧
  (∀ t, t ∈ atSet islands_end ↔ activeTris islands_end !! t = Some true) ∧
  NoDup (elements (atSet islands_end)) ∧
  (∀ t, skip islands_env !! t = Some true → t ∉ atSet islands_end).
Proof.
  assert (sweep_init islands_queries islands_uvs islands_tris [] []
            = Ok (islands_env, islands_start)) as Hinit
    by (vm_compute; reflexivity).
  assert (rtc (next pointInTri_exact (Some 11%Q) islands_queries islands_uvs
                 islands_tris islands_env) islands_start islands_end) as Hreach
    by (apply (run_reaches _ _ _ _ _ _ 20); vm_compute; reflexivity).
  split; [exact Hinit|]. split; [exact Hreach|].
  exact (sweep_active_set_agrees pointInTri_exact (Some 11%Q) islands_queries
           islands_uvs islands_tris [] [] islands_env islands_start islands_end
           Hinit Hreach).
Defined.

Lemma sweep_unresolved_reads_zero_witness :
  sweep pointInTri_exact (Some 4%Q) mixed_queries one_tri_uvs one_tri [] [] []
    = Returned ([0; 0; 0], [0; 0; 0; 1], []) ∧
  length [0; 0; 0] = length mixed_queries ∧
  (∀ i t, [0; 0; 0] !! i = Some t → t ≠ 0 →
     ∃ q a b c, mixed_queries !! i = Some q ∧
                corner one_tri_uvs one_tri OobScan (3 * t) = Ok a ∧
                corner one_tri_uvs one_tri OobScan (3 * t + 1) = Ok b ∧
                corner one_tri_uvs one_tri OobScan (3 * t + 2) = Ok c ∧
                pointInTri_exact q a b c = true) ∧
  (∀ i, i ∈ drop (length mixed_queries) [0; 0; 0; 1] → [0; 0; 0] !! i = Some 0).
Proof.
  assert (sweep pointInTri_exact (Some 4%Q) mixed_queries one_tri_uvs one_tri
            [] [] [] = Returned ([0; 0; 0], [0; 0; 0; 1], [])) as Hrun
    by (vm_compute; reflexivity).
  split; [exact Hrun|].
  exact (sweep_unresolved_reads_zero pointInTri_exact (Some 4%Q) mixed_queries
           one_tri_uvs one_tri [] [] [0; 0; 0] [0; 0; 0; 1] [] Hrun).
Defined.

Lemma sweep_unwritten_keeps_resize_witness :
  sweep pointInTri_exact (Some 4%Q) mixed_queries one_tri_uvs one_tri
    [9; 9; 9; 9; 9] [] []
    = Returned ([0; 9; 0], [0; 0; 0; 1], []) ∧
  length [0; 9; 0] = length mixed_queries ∧
  (∀ i t, [0; 9; 0] !! i = Some t →
     resize (length mixed_queries) 0 [9; 9; 9; 9; 9] !! i = Some t ∨
     ∃ q a b c, mixed_queries !! i = Some q ∧
                corner one_tri_uvs one_tri OobScan (3 * t) = Ok a ∧
                corner one_tri_uvs one_tri OobScan (3 * t + 1) = Ok b ∧
                corner one_tri_uvs one_tri OobScan (3 * t + 2) = Ok c ∧
                pointInTri_exact q a b c = true) ∧
  (∀ i, i ∈ drop (length mixed_queries) [0; 0; 0; 1] →
     [0; 9; 0] !! i = resize (length mixed_queries) 0 [9; 9; 9; 9; 9] !! i ∧
     (i < length [9; 9; 9; 9; 9] → [0; 9; 0] !! i = [9; 9; 9; 9; 9] !! i) ∧
     (length [9; 9; 9; 9; 9] ≤ i → [0; 9; 0] !! i = Some 0)).
Proof.
  assert (sweep pointInTri_exact (Some 4%Q) mixed_queries one_tri_uvs one_tri
            [9; 9; 9; 9; 9] [] [] = Returned ([0; 9; 0], [0; 0; 0; 1], []))
    as Hrun by (vm_compute; reflexivity).
  split; [exact Hrun|].
  exact (sweep_unwritten_keeps_resize pointInTri_exact (Some 4%Q)
           mixed_queries one_tri_uvs one_tri [9; 9; 9; 9; 9] [] []
           [0; 9; 0] [0; 0; 0; 1] [] Hrun).
Defined.

(** C10 as it was stated fails when [out] is not empty on entry: a caller
    who hands in five entries 9 gets [out] = 0, 9, 0 back, and query point
    1, pushed on [missing], reads 9 and not 0. *)
Lemma sweep_unresolved_reads_caller_value :
  ¬ (∀ (out0 missing0 o m : list nat) (barys0 b : list (uv_t Q)),
       sweep pointInTri_exact (Some 4%Q) mixed_queries one_tri_uvs one_tri
         out0 missing0 barys0 = Returned (o, m, b) →
       ∀ i, i ∈ drop (length mixed_queries) m → o !! i = Some 0).
Proof.
  intros Hall.
  assert (sweep pointInTri_exact (Some 4%Q) mixed_queries one_tri_uvs one_tri
            [9; 9; 9; 9; 9] [] [] = Returned ([0; 9; 0], [0; 0; 0; 1], []))
    as Hrun by (vm_compute; reflexivity).
  specialize (Hall _ _ _ _ _ _ Hrun 1 ltac:(by left)). discriminate Hall.
Qed.

(** C1 fails on the code.  Four query points inside triangle 1 of the
    square: the sweep resolves every one of them to triangle 1, and yet
    returns [missing] with four entries, the zeros [missing.resize] of
    line 76 put there, so that query point 0 is listed as missing four
    times. *)
Theorem sweep_prefills_missing :
  Forall (λ q, pointInTri_exact q (Qpt 4 0) (Qpt 4 4) (Qpt 0 4) = true)
    square_queries ∧
  sweep pointInTri_exact (Some 4%Q) square_queries square_uvs square_tris
    [] [] [] = Returned ([1; 1; 1; 1], [0; 0; 0; 0], []).
Proof. split; [by repeat constructor|by vm_compute]. Qed.

(** C2 fails on the code.  The keys of the query permutation are the x of
    the three vertices, 0, 4, 0, not the x of the four query points, 2, 1,
    1, 1.  The Test action runs three times, for the query points 0, 2, 1 in
    this order, whose x are 2, 1, 1; query point 3 is never tested. *)
Theorem sweep_orders_by_vertex_x :
  ∃ e s0 s,
    sweep_init order_queries one_tri_uvs one_tri [] [] = Ok (e, s0) ∧
    run pointInTri_exact (Some 4%Q) order_queries one_tri_uvs one_tri
      (sweep_fuel one_tri_uvs one_tri) e s0 = Returned s ∧
    qpx e = [0; 4; 0]%Q ∧
    fst <$> order_queries = [2; 1; 1; 1]%Q ∧
    qpSIdxs e = [0; 2; 1] ∧
    omap (λ i, fst <$> order_queries !! i) (qpSIdxs e) = [2; 1; 1]%Q ∧
    qpSIdx s = 3 ∧
    length order_queries = 4.
Proof.
  eexists _, _, _. split; [by vm_compute|]. split; [by vm_compute|].
  by vm_compute.
Qed.

(** C3 fails on the code.  The point (2,1) lies on the edge from (0,0) to
    (4,2), at squared distance 0, and at squared distance 4 from the edge
    from (2,3) to (3,3).  [handleMissing] divides by (dy - dx)^2, which is 4
    for the first edge where dx^2 + dy^2 is 20, finds 5 and 4, and assigns
    the triangle of the second edge. *)
Theorem handleMissing_picks_farther_edge :
  spec_dist2 (Qpt 0 0) (Qpt 4 2) (Qpt 2 1) = 0%Q ∧
  spec_dist2 (Qpt 2 3) (Qpt 3 3) (Qpt 2 1) = 4%Q ∧
  spec_len2 (Qpt 4 2) = 20%Q ∧
  mapR (border_row edges_uvs) edges_borders
    = Ok [(Qpt 0 0, Qpt 4 2, 4%Q); (Qpt 2 3, Qpt 1 0, 1%Q)] ∧
  edge_l2 (Qpt 0 0) (Qpt 4 2) 4%Q (Qpt 2 1) = 5%Q ∧
  edge_l2 (Qpt 2 3) (Qpt 1 0) 1%Q (Qpt 2 1) = 4%Q ∧
  handleMissing edges_uvs edges_borders [4] [7; 8] [0; 0; 0; 0; 0]
    = Ok [0; 0; 0; 0; 8].
Proof. by vm_compute. Qed.

(** C4 fails on the code.  With a vertex at x = 5, to the right of the one
    triangle, Deactivate takes the only element of its permutation, is
    chosen again, and loads [mxSIdxs[1]] from a vector of one element: the
    run ends there and not by the [break].  When the load of line 101 is
    trapped the run ends at that line. *)
Theorem sweep_overruns_xmax_cursor :
  sweep pointInTri_exact (Some 4%Q) far_queries far_uvs one_tri [] [] []
    = Faulted OobXmaxCursor ∧
  sweep pointInTri_exact None far_queries far_uvs one_tri [] [] []
    = Faulted OobSentinel.
Proof. by vm_compute. Qed.

(** C5 fails on the code.  The index of the load of line 101 is 2^64 - 1,
    outside the one-element vector [mxSIdxs]: a trapped load ends the run,
    and a load that gives -1 makes the sentinel 0, with which Activate wins
    again and runs its cursor over the end of [mnSIdxs]. *)
Theorem sweep_sentinel_out_of_range :
  size_t_neg1 = 18446744073709551615%N ∧
  rdN (argsort Qltb [4%Q]) size_t_neg1 = None ∧
  sweep pointInTri_exact None inside_queries one_tri_uvs one_tri [] [] []
    = Faulted OobSentinel ∧
  sweep pointInTri_exact (Some (-1)%Q) inside_queries one_tri_uvs one_tri
    [] [] [] = Faulted OobXminCursor.
Proof. by vm_compute. Qed.

(** C6 fails on the code.  Six copies of a point inside triangle 1 and in no
    other triangle: the copies 0, 2 and 1 are tested while only triangle 0
    is active and are pushed on [missing], with 0 left in [out]; and
    [barys] comes back empty, with no entry for any of the six. *)
Theorem sweep_misses_interior_point :
  pointInTri_exact in_island_1 (Qpt 10 0) (Qpt 11 0) (Qpt 10 1) = true ∧
  pointInTri_exact in_island_1 (Qpt 0 0) (Qpt 1 0) (Qpt 0 1) = false ∧
  sweep pointInTri_exact (Some 11%Q) islands_queries islands_uvs islands_tris
    [] [] []
    = Returned ([0; 0; 0; 1; 1; 1], [0; 0; 0; 0; 0; 0; 0; 2; 1], []).
Proof. by vm_compute. Qed.

(** The scenario of section 8, one query point: the cursor goes on to the
    second vertex and loads [qPoints[2]]. *)
Example sweep_single_query :
  sweep pointInTri_exact (Some 1%Q) [quarter] unit_tri_uvs one_tri [] [] []
    = Faulted OobQuery.
Proof. by vm_compute. Qed.

(** The vertex (5,5) lies to the right of the one triangle: no call on
    these vertices returns, whatever the query points and whatever the load
    of line 101 gives. *)
Example far_uvs_never_return wild qs out0 missing0 barys0 r :
  sweep pointInTri_exact wild qs far_uvs one_tri out0 missing0 barys0
    ≠ Returned r.
Proof.
  apply (sweep_far_vertex_never_returns (H0 := Q_float_order)) with (p := Qpt 5 5).
  split; [by do 3 right; left|].
  intros [|[|[|k]]] j q [= <-]; intros [= <-]; reflexivity.
Qed.

(** With the load of line 101 trapped, no call returns: here for the one
    triangle. *)
Example one_tri_trapped qs out0 missing0 barys0 r :
  sweep pointInTri_exact None qs one_tri_uvs one_tri out0 missing0 barys0
    ≠ Returned r.
Proof. by apply (sweep_trapped_never_returns (H0 := Q_float_order)). Qed.

(** * Further properties of the code *)

(** ** argsort: the result is determined, and what it does to the keys *)

Lemma StronglySorted_seq (R : nat → nat → Prop) a n :
  (∀ i j, a ≤ i → i < j → j < a + n → R i j) → StronglySorted R (seq a n).
Proof.
  revert a. induction n as [|n IH]; intros a HR; simpl; constructor.
  - apply IH. intros i j ???. apply HR; lia.
  - apply Forall_seq. intros j Hj. apply HR; lia.
Qed.

Lemma omap_after_fmap {A B C} (f : B → option C) (g : A → B) (l : list A) :
  omap f (g <$> l) = omap (λ x, f (g x)) l.
Proof.
  induction l as [|x l IH]; [done|]. csimpl. destruct (f (g x)); by rewrite IH.
Qed.

Lemma omap_lookup_seq {A} (v : list A) :
  omap (λ i, v !! i) (seq 0 (length v)) = v.
Proof.
  induction v as [|x v IH]; [done|].
  csimpl. f_equal. rewrite <- fmap_S_seq, omap_after_fmap. exact IH.
Qed.

Section ArgsortMore.
Context {T : Type} (lt : T → T → bool) `{!StrictWeakOrder lt}.

Lemma sorted_positions_unique (v : list T) (l : list nat) :
  l ≡ₚ seq 0 (length v) →
  StronglySorted (before lt v) l →
  l = argsort lt v.
Proof.
  intros Hperm Hs.
  apply (StronglySorted_unique_strong (before lt v)); [|done|by apply argsort_sorted|].
  - intros a b _ _ (x & y & Ha & Hb & Hyx & Hab) (y' & x' & Hb' & Ha' & Hxy & Hba).
    assert (x' = x) as -> by congruence. assert (y' = y) as -> by congruence.
    specialize (Hab Hxy). specialize (Hba Hyx). lia.
  - by rewrite Hperm, argsort_perm.
Qed.

(** The order and stability conditions leave one arrangement of the
    positions: a list of the positions 0..n-1 that is sorted by [before] is
    what [argsort] returns. *)
Theorem argsort_unique (v : list T) (l : list nat) :
  l ≡ₚ seq 0 (length v) →
  StronglySorted (before lt v) l →
  l = argsort lt v.
Proof. apply sorted_positions_unique. Qed.

(** Keys that never decrease are left in place. *)
Theorem argsort_sorted_input (v : list T) :
  (∀ i j x y, i < j → v !! i = Some x → v !! j = Some y → lt y x = false) →
  argsort lt v = seq 0 (length v).
Proof.
  intros Hv. symmetry. apply sorted_positions_unique; [done|].
  apply StronglySorted_seq. intros i j _ Hij Hj.
  destruct (lookup_lt_is_Some_2 v i ltac:(lia)) as [x Hx].
  destruct (lookup_lt_is_Some_2 v j ltac:(lia)) as [y Hy].
  exists x, y. split; [done|]. split; [done|].
  split; [exact (Hv i j x y Hij Hx Hy)|done].
Qed.
End ArgsortMore.

(** Read through the result, the keys are the input keys in another
    order; this needs no law of the comparison. *)
Theorem argsort_keys_perm {T : Type} (lt : T → T → bool) (v : list T) :
  omap (λ i, v !! i) (argsort lt v) ≡ₚ v.
Proof. by rewrite argsort_perm, omap_lookup_seq. Qed.

(** ** sweep: which query indices a returning call has been through *)

Section SweepAccounts.
Context {F : Type} `{Float64 F}.
Variable pointInTri : uv_t F → uv_t F → uv_t F → uv_t F → bool.
Variable wild : option F.
Variables (qPoints uvs : list (uv_t F)) (tris : list nat).

Local Abbreviation step' := (step pointInTri wild qPoints uvs tris).
Local Abbreviation run' := (run pointInTri wild qPoints uvs tris).
Local Abbreviation account_inv' := (account_inv pointInTri qPoints uvs tris).

(** A run that returns does so from a round of a state the invariant
    holds in. *)
Lemma run_last_round (P : state F → Prop) e :
  (∀ s s', P s → step' e s = Ok (Continue s') → P s') →
  ∀ fuel s s', P s → run' fuel e s = Returned s' →
  ∃ s1, P s1 ∧ step' e s1 = Ok (Break s').
Proof.
  intros Hstep fuel. induction fuel as [|fuel IH]; simpl; intros s s' HP Hrun.
  { done. }
  destruct (step' e s) as [[s1|s1]|f] eqn:Hs; [| |done].
  - apply (IH s1); [|done]. by apply (Hstep s).
  - injection Hrun as <-. by exists s.
Qed.

Lemma account_inv_init out0 missing0 e s :
  sweep_init qPoints uvs tris out0 missing0 = Ok (e, s) → account_inv' e s.
Proof.
  intros Hi. apply sweep_init_spec in Hi.
  destruct Hi as (_&_&_&_&_&_&_&Hq&_&_&Hq0&Hout&Hmiss&_&_).
  unfold account_inv, visited, pushed. rewrite Hq, Hout, Hmiss, !length_resize.
  split; [done|]. split; [done|]. split; [done|].
  split; [rewrite drop_ge by (by rewrite length_resize); apply sublist_nil_l|].
  intros i Hi. by apply elem_of_nil in Hi.
Qed.

Lemma account_inv_step e s st :
  NoDup (qpSIdxs e) →
  account_inv' e s → step' e s = Ok st → account_inv' e (state_of st).
Proof.
  intros Hnd (Hcur & Hlen & Hmlen & Hsub & Hacc) Hs.
  apply step_cases in Hs as [(_ & s' & -> & Hs)|[[_ Hs]|(_ & s' & -> & Hs)]]; simpl.
  - apply activate_spec in Hs as (t & _ & _ & _ & _ & (Hq & Hi & _ & Ho & Hm) & _).
    unfold account_inv, visited, pushed in *. rewrite Hq, Hi, Ho, Hm. eauto 10.
  - apply test_spec in Hs as (q & Hq & Hk & _ & _ & _ & Hcase & Hend).
    set (s' := state_of st) in *.
    assert (qpSIdx s < length (qpSIdxs e)) as Hlt.
    { destruct st as [s1|s1]; [|lia].
      destruct Hend as (_ & Hl%lookup_lt_Some & _). lia. }
    specialize (Hcur Hlt).
    assert (visited e s' = visited e s ++ [qpIdx s]) as Hvis.
    { unfold visited. rewrite Hk. by apply take_S_r. }
    assert (qpIdx s ∉ visited e s) as Hnew
      by by apply NoDup_lookup_not_before.
    assert (qpIdx s < length qPoints) as Hin by by eapply lookup_lt_Some.
    unfold account_inv. rewrite Hvis. unfold pushed in *.
    split.
    { destruct st as [s1|s1]; [|simpl in *; lia].
      destruct Hend as (_ & Hl & _). by rewrite Hk. }
    destruct Hcase as [(t & Ht & Hth & Ho & Hm)|[Ho Hm]]; rewrite Ho, Hm.
    + split; [by rewrite length_insert|]. split; [done|].
      split; [by apply sublist_inserts_r|].
      intros i [Hi|Hi%list_elem_of_singleton]%elem_of_app.
      * destruct (Hacc i Hi) as [Hil Hcase]. split; [done|].
        destruct Hcase as [?|(t' & q' & Ho' & ?)]; [by left|right].
        exists t', q'. rewrite list_lookup_insert_ne by (by intros <-). done.
      * subst i. split; [done|right]. exists t, q.
        rewrite list_lookup_insert_eq by lia. done.
    + split; [done|]. split; [rewrite length_app; lia|].
      rewrite drop_app_le by done.
      split; [by apply sublist_app|].
      intros i [Hi|Hi%list_elem_of_singleton]%elem_of_app.
      * destruct (Hacc i Hi) as [Hil Hcase]. split; [done|].
        destruct Hcase as [?|?]; [left; apply elem_of_app; by left|by right].
      * subst i. split; [done|left]. apply elem_of_app. right. by left.
  - apply deactivate_spec in Hs as (t & _ & _ & _ & _ & (Hq & Hi & _ & Ho & Hm) & _).
    unfold account_inv, visited, pushed in *. rewrite Hq, Hi, Ho, Hm. eauto 10.
Qed.

Lemma account_inv_run out0 missing0 e s0 s fuel :
  sweep_init qPoints uvs tris out0 missing0 = Ok (e, s0) →
  run' fuel e s0 = Returned s →
  account_inv' e s ∧ visited e s = argsort flt (fst <$> uvs).
Proof.
  intros Hinit Hrun. split.
  - eapply (run_invariant _ _ _ _ _ (account_inv' e)); [|by eapply account_inv_init|done].
    intros s1 st. apply account_inv_step.
    apply sweep_init_spec in Hinit as (_ & -> & _). apply argsort_NoDup.
  - unfold visited. rewrite (run_Returned_cursor _ _ _ _ _ _ _ _ _ Hrun).
    apply sweep_init_spec in Hinit as (<- & <- & _). by rewrite firstn_all.
Qed.
End SweepAccounts.

Section SweepAccountsOut.
Context {F : Type} `{Float64 F}.
Variable pointInTri : uv_t F → uv_t F → uv_t F → uv_t F → bool.
Variable wild : option F.
Variables (qPoints uvs : list (uv_t F)) (tris : list nat).

Local Abbreviation sweep' := (sweep pointInTri wild qPoints uvs tris).


(** The indices pushed on [missing] come in the order of the sweep, that of
    [argsort] on the x of the vertices, and none of them twice. *)
Theorem sweep_missing_in_sweep_order out0 missing0 barys0 o m b :
  sweep pointInTri wild qPoints uvs tris out0 missing0 barys0
    = Returned (o, m, b) →
  drop (length qPoints) m `sublist_of` argsort flt (fst <$> uvs) ∧
  NoDup (drop (length qPoints) m).
Proof.
  intros (e & s0 & s & Hinit & Hrun & _ & -> & _)%sweep_Returned.
  destruct (account_inv_run _ _ _ _ _ _ _ _ _ _ _ Hinit Hrun)
    as [(_ & _ & _ & Hsub & _) Hvis].
  unfold pushed in Hsub. rewrite Hvis in Hsub. split; [done|].
  exact (sublist_NoDup _ _ (argsort_NoDup flt (fst <$> uvs)) Hsub).
Qed.

(** A query index that is no position of [uvs] is never tested: its [out]
    entry is as line 75 left it, and it is not pushed on [missing]. *)
Theorem sweep_ignores_late_queries out0 missing0 barys0 o m b :
  sweep pointInTri wild qPoints uvs tris out0 missing0 barys0
    = Returned (o, m, b) →
  ∀ i, length uvs ≤ i →
    o !! i = resize (length qPoints) 0 out0 !! i ∧
    i ∉ drop (length qPoints) m.
Proof.
  intros (e & s0 & s & Hinit & Hrun & -> & -> & _)%sweep_Returned i Hi.
  destruct (account_inv_run _ _ _ _ _ _ _ _ _ _ _ Hinit Hrun)
    as [(_ & _ & _ & Hsub & _) Hvis].
  destruct (results_inv_run _ _ _ _ _ _ _ _ _ _ _ Hinit Hrun)
    as (_ & _ & Hfresh & _).
  assert (i ∉ visited e s) as Hni.
  { rewrite Hvis, argsort_elem, length_fmap. unfold uv_t in *. lia. }
  split; [by apply Hfresh|].
  intros Hin. apply Hni. exact (elem_of_sublist _ _ _ Hin Hsub).
Qed.
End SweepAccountsOut.

(** ** sweep: rounds, and inputs the setup stops at *)

Lemma mapR_Err_at {A B} (f : A → result B) (l : list A) i x g :
  (∀ y g', f y = Err g' → g' = g) →
  l !! i = Some x → f x = Err g → mapR f l = Err g.
Proof.
  intros Hg. revert i. induction l as [|x0 l IH]; intros i Hi Hx; [done|].
  simpl. destruct i as [|i]; simpl in Hi.
  - injection Hi as ->. by rewrite Hx.
  - destruct (f x0) as [y|g'] eqn:Hx0; simpl.
    + by rewrite (IH i Hi Hx).
    + by rewrite (Hg x0 g' Hx0).
Qed.

Lemma bind_Err {A B} (m : result A) (k : A → result B) g :
  result_bind m k = Err g → m = Err g ∨ ∃ a, m = Ok a ∧ k a = Err g.
Proof.
  destruct m as [a|f]; simpl; intros Hk; [right; by exists a|left].
  by injection Hk as ->.
Qed.

Section SweepSetup.
Context {F : Type} `{Float64 F}.
Variable pointInTri : uv_t F → uv_t F → uv_t F → uv_t F → bool.
Variable wild : option F.
Variables (qPoints uvs : list (uv_t F)) (tris : list nat).

Local Abbreviation step' := (step pointInTri wild qPoints uvs tris).
Local Abbreviation run' := (run pointInTri wild qPoints uvs tris).
Local Abbreviation sweep' := (sweep pointInTri wild qPoints uvs tris).

(** A round moves one of the three cursors, by one place, off an element
    of its permutation, and leaves the other two where they are. *)
Theorem step_advances_one_cursor e s st :
  step' e s = Ok st →
  (mnSIdx s < length (mnSIdxs e) ∧ mnSIdx (state_of st) = S (mnSIdx s) ∧
   qpSIdx (state_of st) = qpSIdx s ∧ mxSIdx (state_of st) = mxSIdx s) ∨
  (qpSIdx s < length (qpSIdxs e) ∧ qpSIdx (state_of st) = S (qpSIdx s) ∧
   mnSIdx (state_of st) = mnSIdx s ∧ mxSIdx (state_of st) = mxSIdx s) ∨
  (mxSIdx s < length (mxSIdxs e) ∧ mxSIdx (state_of st) = S (mxSIdx s) ∧
   mnSIdx (state_of st) = mnSIdx s ∧ qpSIdx (state_of st) = qpSIdx s).
Proof.
  intros Hs.
  apply step_cases in Hs as [(_ & s' & -> & Hs)|[[_ Hs]|(_ & s' & -> & Hs)]]; simpl.
  - apply activate_spec in Hs as (t & Ht%lookup_lt_Some & Hn & Hx & _ & (Hq & _) & _).
    left. by repeat split.
  - apply test_spec in Hs as (q & _ & Hq & Hn & Hx & _ & _ & Hend).
    right; left. split; [|by repeat split].
    destruct st as [s1|s1]; [|lia].
    destruct Hend as (_ & Hl%lookup_lt_Some & _). lia.
  - apply deactivate_spec in Hs as (t & Ht%lookup_lt_Some & Hx & Hn & _ & (Hq & _) & _).
    right; right. by repeat split.
Qed.

(** From the state the setup leaves, the loop makes at most
    2 * numTris + |uvs| rounds that continue. *)
Theorem sweep_loop_bounded out0 missing0 e s0 fuel :
  sweep_init qPoints uvs tris out0 missing0 = Ok (e, s0) →
  2 * numTris tris + length uvs < fuel →
  run' fuel e s0 ≠ OutOfFuel.
Proof.
  intros Hinit Hfuel. apply run_stops. unfold rounds_left.
  apply sweep_init_spec in Hinit
    as (Hqpx & -> & -> & -> & Hmn & Hmx & _ & -> & -> & -> & _).
  rewrite !argsort_length, Hmn, Hmx, Hqpx, length_fmap.
  unfold uv_t in *. lia.
Qed.

(** Without a whole triangle the call stops in the setup, at the loads of
    lines 68 and 69. *)
Theorem sweep_no_triangle out0 missing0 barys0 :
  length tris < 3 →
  sweep pointInTri wild qPoints uvs tris out0 missing0 barys0
    = Faulted OobSetup.
Proof.
  intros Hlen. unfold sweep, sweep_init.
  replace (numTris tris) with 0 by (symmetry; by apply Nat.div_small).
  simpl. destruct (rd OobSetup (argsort flt uvs.*1) 0) as [i|f] eqn:Hrd; simpl.
  - done.
  - by apply rd_Err in Hrd as [_ ->].
Qed.

Lemma corner_Err f k g : corner uvs tris f k = Err g → g = f.
Proof.
  unfold corner. destruct (rd f tris k) as [j|g'] eqn:Hk; simpl.
  - by intros [_ ->]%rd_Err.
  - apply rd_Err in Hk as [_ ->]. by intros [= <-].
Qed.

Lemma bbox_Err i g : bbox uvs tris i = Err g → g = OobBox.
Proof.
  unfold bbox. intros Hb.
  apply bind_Err in Hb as [Hc|(p0 & _ & Hb)]; [by apply corner_Err in Hc|].
  apply bind_Err in Hb as [Hc|(p1 & _ & Hb)]; [by apply corner_Err in Hc|].
  apply bind_Err in Hb as [Hc|(p2 & _ & Hb)]; [by apply corner_Err in Hc|done].
Qed.

Lemma bbox_bad_corner i r j :
  r < 3 → tris !! (3 * i + r) = Some j → length uvs ≤ j →
  bbox uvs tris i = Err OobBox.
Proof.
  intros Hr Hk Hj.
  assert (corner uvs tris OobBox (3 * i + r) = Err OobBox) as Hc.
  { unfold corner, rd. rewrite Hk. simpl. by rewrite (lookup_ge_None_2 uvs j). }
  destruct (bbox uvs tris i) as [b|g] eqn:Hb; [|by rewrite (bbox_Err _ _ Hb)].
  unfold bbox in Hb.
  apply bind_Ok in Hb as (p0 & H0 & Hb).
  apply bind_Ok in Hb as (p1 & H1 & Hb).
  apply bind_Ok in Hb as (p2 & H2 & Hb).
  destruct r as [|[|[|r]]]; [|congruence|congruence|lia].
  rewrite Nat.add_0_r in Hc. congruence.
Qed.

(** A triangle that names a vertex [uvs] does not have stops the call at
    the bounding boxes, lines 53-56. *)
Theorem sweep_bad_triangle_index out0 missing0 barys0 k j :
  k < 3 * numTris tris → tris !! k = Some j → length uvs ≤ j →
  sweep pointInTri wild qPoints uvs tris out0 missing0 barys0
    = Faulted OobBox.
Proof.
  intros Hk Hj Hlen.
  assert (mapR (bbox uvs tris) (seq 0 (numTris tris)) = Err OobBox) as Hbs.
  { apply (mapR_Err_at _ _ (k / 3) (k / 3)).
    - intros i g. apply bbox_Err.
    - apply lookup_seq. split; [done|]. apply Nat.Div0.div_lt_upper_bound. lia.
    - apply (bbox_bad_corner _ (k mod 3) j); [|by rewrite <- Nat.div_mod_eq|done].
      by apply Nat.mod_upper_bound. }
  unfold sweep, sweep_init. by rewrite Hbs.
Qed.
End SweepSetup.

(** ** sweep under the order laws: skip flags, and what a return needs *)

Section SweepOrder.
Context {F : Type} `{FloatOrder F}.
Variable pointInTri : uv_t F → uv_t F → uv_t F → uv_t F → bool.
Variable wild : option F.
Variables (qPoints uvs : list (uv_t F)) (tris : list nat).

Local Abbreviation step' := (step pointInTri wild qPoints uvs tris).
Local Abbreviation run' := (run pointInTri wild qPoints uvs tris).
Local Abbreviation sweep' := (sweep pointInTri wild qPoints uvs tris).

(** The key at the first place of [argsort] is a smallest one. *)
Lemma argsort_first_min (v : list F) i x j y :
  argsort flt v !! 0 = Some i → v !! i = Some x →
  v !! j = Some y → fle x y = true.
Proof.
  intros Hi Hx Hy.
  assert (j ∈ argsort flt v) as Hj
    by (apply argsort_elem; by eapply lookup_lt_Some).
  apply list_elem_of_lookup in Hj as [k Hk].
  destruct k as [|k].
  { assert (j = i) as -> by congruence.
    assert (y = x) as -> by congruence. apply fle_refl. }
  pose proof (argsort_sorted flt (StrictWeakOrder0 := flt_swo) v) as Hs.
  destruct (StronglySorted_lookup _ _ 0 (S k) i j Hs ltac:(lia) Hi Hk)
    as (x' & y' & Hx' & Hy' & Hnlt & _).
  assert (y' = y) as -> by congruence. assert (x' = x) as -> by congruence.
  by apply flt_false_fle.
Qed.

(** No triangle is ever skipped: the first sweep position is the smallest
    x of [uvs], and every xmax is the x of a vertex. *)
Theorem sweep_init_skips_nothing out0 missing0 e s t b :
  sweep_init qPoints uvs tris out0 missing0 = Ok (e, s) →
  skip e !! t = Some b → b = false.
Proof.
  intros Hinit Hb.
  pose proof (xmax_inv_init _ _ _ _ _ _ _ Hinit) as (_ & Hqi & Hqp).
  pose proof Hinit as (Hqpx & Hperm & _ & _ & _ & _ & Hskip & Hq0 & _)%sweep_init_spec.
  rewrite Hskip in Hb. apply list_lookup_fmap_Some in Hb as (x & -> & Hx).
  destruct (sweep_init_xmxs _ _ _ _ _ _ _ _ _ Hinit Hx) as (k & j & q & _ & Hj & ->).
  rewrite Hq0, Hperm in Hqi.
  rewrite flt_not_fle, (argsort_first_min (qpx e) (qpIdx s) (qp s) j q.1); [done..|].
  rewrite Hqpx. apply list_lookup_fmap_Some. by exists q.
Qed.

Lemma activate_xmin e s s' :
  activate wild tris e s = Ok s' →
  length (mnSIdxs e) = numTris tris → xmin_inv e s'.
Proof.
  unfold activate, xmin_inv. intros Hs Hlen.
  apply bind_Ok in Hs as (t & Ht%rd_Ok & Hs).
  apply lookup_lt_Some in Ht.
  apply bind_Ok in Hs as (act & _ & Hs).
  apply bind_Ok in Hs as (sk & _ & Hs).
  assert (mnSIdx (if negb act && negb sk
                  then set_active s (<[t:=true]> (activeTris s)) ({[t]} ∪ atSet s)
                  else s) = mnSIdx s) as Hsame
    by by destruct (negb act && negb sk).
  destruct (decide _) as [Hne|Heq] in Hs.
  - apply bind_Ok in Hs as (idx & Hidx%rd_Ok & Hs).
    apply bind_Ok in Hs as (x & Hx%rd_Ok & Hs).
    injection Hs as <-. simpl. rewrite Hsame in *. split; [lia|done].
  - apply bind_Ok in Hs as (w & _ & Hs). injection Hs as <-. simpl.
    rewrite Hsame in *. split; lia.
Qed.

Lemma xmin_inv_init out0 missing0 e s :
  sweep_init qPoints uvs tris out0 missing0 = Ok (e, s) → xmin_inv e s.
Proof.
  intros Hinit.
  pose proof (cursors_inv_init _ _ _ _ _ _ _ Hinit) as (Hmi & Hmn & _).
  split; [|done]. apply lookup_lt_Some in Hmi. lia.
Qed.

Lemma xmin_inv_step e s s' :
  length (mnSIdxs e) = numTris tris →
  xmin_inv e s → step' e s = Ok (Continue s') → xmin_inv e s'.
Proof.
  intros Hlen [Hle Hlink] Hs.
  apply step_cases in Hs as [(_ & s1 & [= <-] & Hs)|[[_ Hs]|(_ & s1 & [= <-] & Hs)]].
  - by eapply activate_xmin.
  - destruct (test_keeps_bounds _ _ _ _ _ _ _ Hs) as [Hi Hx].
    apply test_spec in Hs as (q & _ & _ & Hk & _). simpl in *.
    unfold xmin_inv. by rewrite Hk, Hi, Hx.
  - pose proof (deactivate_keeps_xmin _ _ _ Hs) as Hi.
    apply deactivate_spec in Hs as (t & _ & _ & Hk & Hx & _).
    unfold xmin_inv. by rewrite Hk, Hi, Hx.
Qed.

(** The last Test action is not chosen while the xmin cursor stands on an
    element: that xmin is at most the last sweep position, so Activate or
    Deactivate goes first. *)
Lemma last_test_after_xmin out0 missing0 e s0 s s' :
  sweep_init qPoints uvs tris out0 missing0 = Ok (e, s0) →
  xmax_inv e s → xmin_inv e s → step' e s = Ok (Break s') →
  mnSIdx s = length (mnSIdxs e) ∧ mnSIdx s' = mnSIdx s ∧
  fle (qp s) (mx s) = true ∧
  ∀ p, p ∈ uvs → fle p.1 (qp s) = true.
Proof.
  intros Hinit (Hmx & Hqi & Hqp) [Hle Hlink] Hs.
  apply step_cases in Hs as [(_ & ? & [=] & _)|[[Hch Hs]|(_ & ? & [=] & _)]].
  apply test_spec in Hs as (q & _ & _ & Hk & _ & _ & _ & Hend). simpl in Hend, Hk.
  pose proof Hinit as (Hqpx & Hperm & _)%sweep_init_spec.
  assert (∀ j y, qpx e !! j = Some y → fle y (qp s) = true) as Hmax.
  { intros j y Hy. rewrite Hperm in Hqi, Hend. rewrite argsort_length in Hend.
    by eapply (argsort_last_max (qpx e)). }
  assert (fle (qp s) (mx s) = true) as Hqm.
  { unfold choose in Hch. destruct (_ && _) in Hch; [done|].
    by destruct (fle (qp s) (mx s)). }
  split; [|split; [done|split; [done|]]].
  - destruct (decide (mnSIdx s < length (mnSIdxs e))) as [Hlt|]; [|lia].
    destruct (Hlink Hlt) as [_ Hmn].
    destruct (sweep_init_xmns _ _ _ _ _ _ _ _ _ Hinit Hmn) as (j & y & Hy & Hley).
    pose proof (fle_trans _ _ _ Hley (Hmax j y Hy)) as Hmq.
    unfold choose in Hch. rewrite Hmq, andb_true_r in Hch.
    destruct (fle (mn s) (mx s)) eqn:Hmm; [done|].
    by rewrite (fle_trans _ _ _ Hmq Hqm) in Hmm.
  - intros p [j Hj]%list_elem_of_lookup. apply (Hmax j).
    rewrite Hqpx. apply list_lookup_fmap_Some. by exists p.
Qed.

Lemma run_last_test out0 missing0 e s0 fuel s' :
  sweep_init qPoints uvs tris out0 missing0 = Ok (e, s0) →
  run' fuel e s0 = Returned s' →
  ∃ s, xmax_inv e s ∧ mnSIdx s' = numTris tris ∧
       fle (qp s) (mx s) = true ∧ ∀ p, p ∈ uvs → fle p.1 (qp s) = true.
Proof.
  intros Hinit Hrun.
  assert (length (mnSIdxs e) = numTris tris) as Hlen.
  { pose proof Hinit as (_ & _ & _ & -> & Hmn & _)%sweep_init_spec.
    by rewrite argsort_length. }
  destruct (run_last_round pointInTri wild qPoints uvs tris
              (λ s, xmax_inv e s ∧ xmin_inv e s) e) with (fuel := fuel)
              (s := s0) (s' := s') as (s & [Hx Hn] & Hs).
  - intros s1 s2 [Hx Hn] Hs. split; [by eapply xmax_inv_step|by eapply xmin_inv_step].
  - split; [by eapply xmax_inv_init|by eapply xmin_inv_init].
  - done.
  - destruct (last_test_after_xmin _ _ _ _ _ _ Hinit Hx Hn Hs) as (Hm & Hm' & Hqm & Hmax).
    exists s. rewrite Hm', Hm, Hlen. done.
Qed.

(** When a call returns, the xmin cursor has been through every triangle:
    each of them was considered by Activate before the last query index
    was tested. *)
Theorem run_returns_xmin_exhausted out0 missing0 e s0 fuel s' :
  sweep_init qPoints uvs tris out0 missing0 = Ok (e, s0) →
  run' fuel e s0 = Returned s' →
  mnSIdx s' = numTris tris.
Proof.
  intros Hinit Hrun.
  by destruct (run_last_test _ _ _ _ _ _ Hinit Hrun) as (s & _ & Hm & _).
Qed.

(** A call returns only if the load of line 101 handed back a number. *)
Theorem sweep_returns_needs_load out0 missing0 barys0 r :
  (N.of_nat (numTris tris) < 2 ^ 64)%N →
  sweep pointInTri wild qPoints uvs tris out0 missing0 barys0 = Returned r →
  ∃ w, wild = Some w.
Proof.
  intros Hlen Hr. destruct wild as [w|] eqn:Hw; [by exists w|].
  by destruct (sweep_trapped_never_returns pointInTri qPoints uvs tris
                 out0 missing0 barys0 r Hlen).
Qed.

(** A call returns only if no vertex lies to the right of all triangles:
    some corner of a triangle has the largest x of [uvs]. *)
Theorem sweep_returns_rightmost_is_corner out0 missing0 barys0 r :
  sweep pointInTri wild qPoints uvs tris out0 missing0 barys0 = Returned r →
  ∃ k j q, tris !! k = Some j ∧ uvs !! j = Some q ∧
           ∀ p, p ∈ uvs → fle p.1 q.1 = true.
Proof.
  intros Hr. destruct r as [[o m] b].
  apply sweep_Returned in Hr as (e & s0 & s' & Hinit & Hrun & _).
  destruct (run_last_test _ _ _ _ _ _ Hinit Hrun)
    as (s & (Hmx & _) & _ & Hqm & Hmax).
  destruct (sweep_init_xmxs _ _ _ _ _ _ _ _ _ Hinit Hmx) as (k & j & q & Hk & Hj & Hq).
  exists k, j, q. split; [done|]. split; [done|].
  intros p Hp. rewrite <- Hq. eapply fle_trans; [by apply Hmax|done].
Qed.
End SweepOrder.

(** ** The fallback: which edge, and which entries *)

Section ClosestMinimum.
Context {F : Type} `{FloatOrder F}.
Variables (a d : list (uv_t F)) (dr2 : list F) (pt : uv_t F).

Lemma flt_fle_trans (x y z : F) :
  flt x y = true → fle y z = true → flt x z = true.
Proof.
  rewrite !flt_not_fle, !negb_true_iff. intros Hyx Hyz.
  destruct (fle z x) eqn:Hzx; [|done].
  by rewrite (fle_trans _ _ _ Hyz Hzx) in Hyx.
Qed.

Lemma closest_round_inv k acc :
  length d = length a → length dr2 = length a → k < length a →
  scan_inv a d dr2 pt k acc →
  ∃ acc', closest_round a d dr2 pt (Ok acc) k = Ok acc' ∧
          scan_inv a d dr2 pt (S k) acc'.
Proof.
  intros Hd Hr Hk (Hmax & Hmin & Hcase). destruct acc as [i v]. simpl in *.
  destruct (lookup_lt_is_Some_2 a k Hk) as [aa Haa].
  destruct (lookup_lt_is_Some_2 d k ltac:(lia)) as [dd Hdd].
  destruct (lookup_lt_is_Some_2 dr2 k ltac:(lia)) as [r2 Hr2].
  assert (l2_at a d dr2 pt k = Some (edge_l2 aa dd r2 pt)) as Hl2
    by (unfold l2_at; by rewrite Haa, Hdd, Hr2).
  unfold rd. rewrite Haa, Hdd, Hr2. simpl.
  set (l2 := edge_l2 aa dd r2 pt) in *.
  destruct (flt l2 v) eqn:Hlt; eexists; (split; [done|]); unfold scan_inv; simpl.
  - pose proof (flt_true_fle _ _ Hlt) as Hle.
    split; [by eapply fle_trans|]. split.
    + intros j x Hj Hx. destruct (decide (j = k)) as [->|Hne].
      * assert (x = l2) as -> by congruence. apply fle_refl.
      * eapply fle_trans; [exact Hle|]. apply (Hmin j); [lia|done].
    + right. split; [lia|]. split; [done|].
      intros j x Hj Hx. eapply flt_fle_trans; [exact Hlt|]. by apply (Hmin j).
  - pose proof (flt_false_fle _ _ Hlt) as Hle.
    split; [done|]. split.
    + intros j x Hj Hx. destruct (decide (j = k)) as [->|Hne].
      * by assert (x = l2) as -> by congruence.
      * apply (Hmin j); [lia|done].
    + destruct Hcase as [(-> & -> & Hnone)|(Hi & Hv & Hfirst)]; [left|right].
      * split; [done|]. split; [done|].
        intros j x Hj Hx. destruct (decide (j = k)) as [->|Hne].
        -- by assert (x = l2) as -> by congruence.
        -- apply (Hnone j); [lia|done].
      * split; [lia|done].
Qed.

Lemma closest_rounds_inv n k acc :
  length d = length a → length dr2 = length a → k + n = length a →
  scan_inv a d dr2 pt k acc →
  ∃ acc', foldl (closest_round a d dr2 pt) (Ok acc) (seq k n) = Ok acc' ∧
          scan_inv a d dr2 pt (k + n) acc'.
Proof.
  intros Hd Hr. revert k acc. induction n as [|n IH]; intros k acc Hk Hinv; cbn [foldl seq].
  { exists acc. by rewrite Nat.add_0_r. }
  destruct (closest_round_inv k acc Hd Hr ltac:(lia) Hinv) as (acc1 & -> & Hinv1).
  destruct (IH (S k) acc1 ltac:(lia) Hinv1) as (acc' & -> & Hinv').
  exists acc'. split; [done|]. by replace (k + S n) with (S k + n) by lia.
Qed.

(** The scan answers with the first edge of smallest squared distance; when
    no edge stays below the largest [double], it answers 0. *)
Theorem closest_scan_first_minimum :
  length d = length a → length dr2 = length a →
  ∃ i v, closest_scan a d dr2 pt = Ok (i, v) ∧
    closestBruteForceEdge a d dr2 pt = Ok i ∧
    (∀ j x, l2_at a d dr2 pt j = Some x → fle v x = true) ∧
    ((i = 0 ∧ v = fdbl_max ∧
      ∀ j x, l2_at a d dr2 pt j = Some x → flt x fdbl_max = false) ∨
     (l2_at a d dr2 pt i = Some v ∧
      ∀ j x, j < i → l2_at a d dr2 pt j = Some x → flt v x = true)).
Proof.
  intros Hd Hr.
  destruct (closest_rounds_inv (length a) 0 (0, fdbl_max) Hd Hr eq_refl)
    as ([i v] & Hscan & _ & Hmin & Hcase).
  { split; [apply fle_refl|]. split; [intros; lia|]. left.
    split; [done|]. split; [done|]. intros; lia. }
  assert (∀ j x, l2_at a d dr2 pt j = Some x → j < length a) as Hdom.
  { intros j x Hx. unfold l2_at in Hx.
    destruct (a !! j) eqn:Ha; [|done]. by eapply lookup_lt_Some. }
  exists i, v. unfold closestBruteForceEdge, closest_scan. rewrite Hscan.
  simpl in *. split; [done|]. split; [done|].
  split; [intros j x Hx; apply (Hmin j); eauto|].
  destruct Hcase as [(-> & -> & Hnone)|(_ & Hv & Hfirst)]; [left|by right].
  split; [done|]. split; [done|]. intros j x Hx. apply (Hnone j); eauto.
Qed.
End ClosestMinimum.

Section MissingEntries.
Context {F : Type} `{Float64 F}.
Variables (uvs starts bDiff : list (uv_t F)) (bLens2 : list F).
Variable borderToTri : list nat.

Local Abbreviation round' :=
  (missing_round uvs starts bDiff bLens2 borderToTri).

Local Abbreviation found_for :=
  (found_in uvs starts bDiff bLens2 borderToTri).

Lemma found_for_inj m t t' : found_for m t → found_for m t' → t = t'.
Proof. intros (mp & e & ? & ? & ?) (mp' & e' & ? & ? & ?). congruence. Qed.

Lemma missing_rounds_Err f l : foldl round' (Err f) l = Err f.
Proof. induction l as [|m l IH]; [done|]. exact IH. Qed.

Lemma missing_round_Ok tri m tri1 :
  round' (Ok tri) m = Ok tri1 →
  ∃ t, found_for m t ∧ m < length tri ∧ tri1 = <[m := t]> tri.
Proof.
  unfold missing_round. simpl. intros Hr.
  apply bind_Ok in Hr as (mp & Hmp%rd_Ok & Hr).
  apply bind_Ok in Hr as (e & He & Hr).
  apply bind_Ok in Hr as (t & Ht%rd_Ok & Hr).
  destruct (decide _) as [Hlt|] in Hr; [|done]. injection Hr as <-.
  exists t. split; [by exists mp, e|done].
Qed.

Lemma missing_round_found tri m t :
  found_for m t → m < length tri → round' (Ok tri) m = Ok (<[m := t]> tri).
Proof.
  intros (mp & e & Hmp & He & Ht) Hlt. unfold missing_round, rd. simpl.
  rewrite Hmp. simpl. rewrite He. simpl. rewrite Ht. simpl.
  by rewrite decide_True.
Qed.

Lemma missing_rounds_spec missing tri tri' :
  foldl round' (Ok tri) missing = Ok tri' →
  length tri' = length tri ∧
  (∀ m, m ∈ missing → ∃ t, found_for m t ∧ tri' !! m = Some t) ∧
  (∀ i, i ∉ missing → tri' !! i = tri !! i).
Proof.
  revert tri. induction missing as [|m missing IH]; intros tri Hf;
    cbn [foldl] in Hf.
  { injection Hf as <-. split; [done|]. split; [|done].
    intros m Hm. by apply elem_of_nil in Hm. }
  destruct (round' (Ok tri) m) as [tri1|f] eqn:Hr;
    [|by rewrite missing_rounds_Err in Hf].
  apply missing_round_Ok in Hr as (t & Ht & Hlt & ->).
  destruct (IH _ Hf) as (Hlen & Hin & Hout).
  split; [by rewrite Hlen, length_insert|]. split.
  - intros m' Hm'. destruct (decide (m' ∈ missing)) as [Hi|Hni]; [by apply Hin|].
    apply elem_of_cons in Hm' as [->|?]; [|done].
    exists t. split; [done|]. by rewrite (Hout m Hni), list_lookup_insert_eq.
  - intros i Hi%not_elem_of_cons. destruct Hi as [Hne Hni].
    by rewrite (Hout i Hni), list_lookup_insert_ne.
Qed.

Lemma missing_rounds_total missing tri :
  (∀ m, m ∈ missing → m < length tri ∧ ∃ t, found_for m t) →
  ∃ tri', foldl round' (Ok tri) missing = Ok tri'.
Proof.
  revert tri. induction missing as [|m missing IH]; intros tri Hall;
    cbn [foldl].
  { by exists tri. }
  destruct (Hall m) as (Hlt & t & Ht); [by left|].
  rewrite (missing_round_found tri m t Ht Hlt).
  apply IH. intros m' Hm'. rewrite length_insert. apply Hall. by right.
Qed.

(** Two passes over index lists with the same elements, from vectors that
    agree outside these indices, end in the same vector. *)
Lemma missing_rounds_agree missing1 missing2 tri1 tri2 tri1' :
  (∀ m, m ∈ missing1 ↔ m ∈ missing2) →
  length tri2 = length tri1 →
  (∀ i, i ∉ missing1 → tri2 !! i = tri1 !! i) →
  foldl round' (Ok tri1) missing1 = Ok tri1' →
  foldl round' (Ok tri2) missing2 = Ok tri1'.
Proof.
  intros Hsame Hlen Hagree H1.
  destruct (missing_rounds_spec _ _ _ H1) as (Hlen1 & Hin1 & Hout1).
  destruct (missing_rounds_total missing2 tri2) as [tri2' H2].
  { intros m Hm%Hsame. destruct (Hin1 m Hm) as (t & Ht & Hl%lookup_lt_Some).
    split; [lia|by exists t]. }
  rewrite H2. f_equal.
  destruct (missing_rounds_spec _ _ _ H2) as (Hlen2 & Hin2 & Hout2).
  apply list_eq. intros i.
  destruct (decide (i ∈ missing1)) as [Hi|Hni].
  - destruct (Hin1 i Hi) as (t & Ht & ->).
    destruct (Hin2 i) as (t' & Ht' & ->); [by apply Hsame|].
    by rewrite (found_for_inj _ _ _ Ht Ht').
  - rewrite (Hout1 i Hni), (Hout2 i), (Hagree i Hni); [done|].
    by rewrite <- Hsame.
Qed.
End MissingEntries.

Section HandleMissingMore.
Context {F : Type} `{Float64 F}.
Variables (uvs : list (uv_t F)) (borders : list edge_t).
Variable borderToTri : list nat.

Lemma nearest_triangle_found rows m t :
  mapR (border_row uvs) borders = Ok rows →
  nearest_triangle uvs borders borderToTri m = Ok t ↔
  found_in uvs ((λ r, r.1.1) <$> rows) ((λ r, r.1.2) <$> rows) (snd <$> rows)
    borderToTri m t.
Proof.
  intros Hrows. unfold nearest_triangle, found_in. rewrite Hrows. simpl. split.
  - intros Hn. apply bind_Ok in Hn as (mp & Hmp%rd_Ok & Hn).
    apply bind_Ok in Hn as (e & He & Ht%rd_Ok). by exists mp, e.
  - intros (mp & e & Hmp & He & Ht). unfold rd. rewrite Hmp. simpl.
    rewrite He. simpl. by rewrite Ht.
Qed.

(** What a returning call leaves in [triIdxs]: for a missing index the
    triangle of the edge the scan picks for [uvs] at that index, and for
    every other index what was there. *)
Theorem handleMissing_entries missing triIdxs triIdxs' :
  handleMissing uvs borders missing borderToTri triIdxs = Ok triIdxs' →
  length triIdxs' = length triIdxs ∧
  (∀ m, m ∈ missing →
     ∃ t, nearest_triangle uvs borders borderToTri m = Ok t ∧
          triIdxs' !! m = Some t) ∧
  (∀ i, i ∉ missing → triIdxs' !! i = triIdxs !! i).
Proof.
  unfold handleMissing. intros Hh.
  apply bind_Ok in Hh as (rows & Hrows & Hh).
  destruct (missing_rounds_spec _ _ _ _ _ _ _ _ Hh) as (Hlen & Hin & Hout).
  split; [done|]. split; [|done].
  intros m Hm. destruct (Hin m Hm) as (t & Ht & Hl).
  exists t. split; [|done]. by apply (nearest_triangle_found rows).
Qed.

(** The result does not depend on the order of the missing indices nor on
    how often each is listed. *)
Theorem handleMissing_same_elements missing1 missing2 triIdxs triIdxs' :
  (∀ m, m ∈ missing1 ↔ m ∈ missing2) →
  handleMissing uvs borders missing1 borderToTri triIdxs = Ok triIdxs' →
  handleMissing uvs borders missing2 borderToTri triIdxs = Ok triIdxs'.
Proof.
  unfold handleMissing. intros Hsame Hh.
  apply bind_Ok in Hh as (rows & Hrows & Hh). rewrite Hrows. simpl.
  by eapply missing_rounds_agree.
Qed.

(** A second call on the result of a first changes nothing. *)
Theorem handleMissing_idempotent missing triIdxs triIdxs' :
  handleMissing uvs borders missing borderToTri triIdxs = Ok triIdxs' →
  handleMissing uvs borders missing borderToTri triIdxs' = Ok triIdxs'.
Proof.
  unfold handleMissing. intros Hh.
  apply bind_Ok in Hh as (rows & Hrows & Hh). rewrite Hrows. simpl.
  destruct (missing_rounds_spec _ _ _ _ _ _ _ _ Hh) as (Hlen & _ & Hout).
  by eapply missing_rounds_agree.
Qed.
End HandleMissingMore.

(** Without boundary edges the scan answers 0, and every missing index gets
    the triangle of the first [borderToTri] entry. *)
Theorem handleMissing_no_borders {F : Type} `{Float64 F}
    (uvs : list (uv_t F)) (missing borderToTri triIdxs : list nat) t0 :
  borderToTri !! 0 = Some t0 →
  Forall (λ m, m < length uvs ∧ m < length triIdxs) missing →
  ∃ triIdxs',
    handleMissing uvs [] missing borderToTri triIdxs = Ok triIdxs' ∧
    (∀ m, m ∈ missing → triIdxs' !! m = Some t0) ∧
    (∀ i, i ∉ missing → triIdxs' !! i = triIdxs !! i).
Proof.
  intros Ht0 Hm. unfold handleMissing. simpl.
  assert (∀ m, m ∈ missing → m < length triIdxs ∧
            ∃ t, found_in uvs [] [] [] borderToTri m t) as Hall.
  { intros m Hin. rewrite Forall_forall in Hm. destruct (Hm m Hin) as [Hu Hl].
    split; [done|]. destruct (lookup_lt_is_Some_2 uvs m Hu) as [mp Hmp].
    exists t0, mp, 0. by repeat split. }
  destruct (missing_rounds_total _ _ _ _ _ _ _ Hall) as [tri' Hf].
  exists tri'. split; [done|].
  destruct (missing_rounds_spec _ _ _ _ _ _ _ _ Hf) as (_ & Hin & Hout).
  split; [|done]. intros m Hmin.
  destruct (Hin m Hmin) as (t & (mp & e & _ & He & Ht) & ->).
  injection He as <-. congruence.
Qed.

(** For an edge whose direction has dx = dy the divisor of line 168 is
    zero, in every arithmetic where x - x and 0 * 0 are 0. *)
Theorem border_row_diagonal {F : Type} `{Float64 F}
    (uvs : list (uv_t F)) (b : edge_t) uv1 diff r2 :
  (∀ x : F, fsub x x = fzero) → fmul fzero fzero = fzero →
  border_row uvs b = Ok (uv1, diff, r2) →
  diff.1 = diff.2 →
  r2 = fzero.
Proof.
  intros Hsub Hmul. unfold border_row. intros Hb Hd.
  apply bind_Ok in Hb as (p1 & _ & Hb). apply bind_Ok in Hb as (p2 & _ & Hb).
  injection Hb as <- <- <-. simpl in *. by rewrite Hd, Hsub.
Qed.

(** ** Instances of the further properties *)

Ltac before_Q :=
  match goal with
  | |- before _ _ _ _ =>
      eexists _, _; split; [reflexivity|]; split; [reflexivity|];
      split; [reflexivity|]; first [intros; lia | intros; discriminate]
  end.

Lemma argsort_unique_witness :
  StrictWeakOrder Qltb ∧
  [1; 3; 0; 2] ≡ₚ seq 0 (length [3; 1; 3; 2]%Q) ∧
  StronglySorted (before Qltb [3; 1; 3; 2]%Q) [1; 3; 0; 2] ∧
  [1; 3; 0; 2] = argsort Qltb [3; 1; 3; 2]%Q.
Proof.
  assert ([1; 3; 0; 2] ≡ₚ seq 0 (length [3; 1; 3; 2]%Q)) as Hp.
  { apply (bool_decide_unpack _). by vm_compute. }
  assert (StronglySorted (before Qltb [3; 1; 3; 2]%Q) [1; 3; 0; 2]) as Hs.
  { repeat (constructor; [|repeat (constructor; [before_Q|]); constructor]).
    constructor. }
  split; [exact Qltb_swo|]. split; [exact Hp|]. split; [exact Hs|].
  exact (argsort_unique Qltb (StrictWeakOrder0 := Qltb_swo) [3; 1; 3; 2]%Q
           [1; 3; 0; 2] Hp Hs).
Defined.

Lemma argsort_sorted_input_witness :
  StrictWeakOrder Qltb ∧
  (∀ i j x y, i < j → [1; 2; 2; 5]%Q !! i = Some x →
     [1; 2; 2; 5]%Q !! j = Some y → Qltb y x = false) ∧
  argsort Qltb [1; 2; 2; 5]%Q = seq 0 (length [1; 2; 2; 5]%Q).
Proof.
  assert (∀ i j x y, i < j → [1; 2; 2; 5]%Q !! i = Some x →
            [1; 2; 2; 5]%Q !! j = Some y → Qltb y x = false) as Hv.
  { intros [|[|[|[|i]]]] [|[|[|[|j]]]] x y Hij [= <-] [= <-];
      first [lia | reflexivity]. }
  split; [exact Qltb_swo|]. split; [exact Hv|].
  exact (argsort_sorted_input Qltb (StrictWeakOrder0 := Qltb_swo)
           [1; 2; 2; 5]%Q Hv).
Defined.

Lemma sweep_no_triangle_witness :
  length [0; 1] < 3 ∧
  sweep pointInTri_exact (Some 4%Q) inside_queries one_tri_uvs [0; 1] [] [] []
    = Faulted OobSetup.
Proof.
  assert (length [0; 1] < 3) as Hlen by (simpl; lia).
  split; [exact Hlen|].
  exact (sweep_no_triangle pointInTri_exact (Some 4%Q) inside_queries
           one_tri_uvs [0; 1] [] [] [] Hlen).
Defined.

Lemma sweep_bad_triangle_index_witness :
  2 < 3 * numTris [0; 1; 7] ∧
  [0; 1; 7] !! 2 = Some 7 ∧
  length one_tri_uvs ≤ 7 ∧
  sweep pointInTri_exact (Some 4%Q) inside_queries one_tri_uvs [0; 1; 7]
    [] [] [] = Faulted OobBox.
Proof.
  assert (2 < 3 * numTris [0; 1; 7]) as Hk by (vm_compute; lia).
  assert ([0; 1; 7] !! 2 = Some 7) as Hj by reflexivity.
  assert (length one_tri_uvs ≤ 7) as Hlen by (simpl; lia).
  split; [exact Hk|]. split; [exact Hj|]. split; [exact Hlen|].
  exact (sweep_bad_triangle_index pointInTri_exact (Some 4%Q) inside_queries
           one_tri_uvs [0; 1; 7] [] [] [] 2 7 Hk Hj Hlen).
Defined.

Lemma sweep_loop_bounded_witness :
  sweep_init islands_queries islands_uvs islands_tris [] []
    = Ok (islands_env, islands_start) ∧
  2 * numTris islands_tris + length islands_uvs < 11 ∧
  run pointInTri_exact (Some 11%Q) islands_queries islands_uvs islands_tris
    11 islands_env islands_start ≠ OutOfFuel.
Proof.
  assert (sweep_init islands_queries islands_uvs islands_tris [] []
            = Ok (islands_env, islands_start)) as Hinit
    by (vm_compute; reflexivity).
  assert (2 * numTris islands_tris + length islands_uvs < 11) as Hfuel
    by (vm_compute; lia).
  split; [exact Hinit|]. split; [exact Hfuel|].
  exact (sweep_loop_bounded pointInTri_exact (Some 11%Q) islands_queries
           islands_uvs islands_tris [] [] islands_env islands_start 11
           Hinit Hfuel).
Defined.

Lemma step_advances_one_cursor_witness :
  step pointInTri_exact (Some 11%Q) islands_queries islands_uvs islands_tris
    islands_env islands_start = Ok (Continue islands_round1) ∧
  ((mnSIdx islands_start < length (mnSIdxs islands_env) ∧
    mnSIdx islands_round1 = S (mnSIdx islands_start) ∧
    qpSIdx islands_round1 = qpSIdx islands_start ∧
    mxSIdx islands_round1 = mxSIdx islands_start) ∨
   (qpSIdx islands_start < length (qpSIdxs islands_env) ∧
    qpSIdx islands_round1 = S (qpSIdx islands_start) ∧
    mnSIdx islands_round1 = mnSIdx islands_start ∧
    mxSIdx islands_round1 = mxSIdx islands_start) ∨
   (mxSIdx islands_start < length (mxSIdxs islands_env) ∧
    mxSIdx islands_round1 = S (mxSIdx islands_start) ∧
    mnSIdx islands_round1 = mnSIdx islands_start ∧
    qpSIdx islands_round1 = qpSIdx islands_start)).
Proof.
  assert (step pointInTri_exact (Some 11%Q) islands_queries islands_uvs
            islands_tris islands_env islands_start
          = Ok (Continue islands_round1)) as Hs
    by (vm_compute; reflexivity).
  split; [exact Hs|].
  exact (step_advances_one_cursor pointInTri_exact (Some 11%Q) islands_queries
           islands_uvs islands_tris islands_env islands_start
           (Continue islands_round1) Hs).
Defined.

Lemma sweep_init_skips_nothing_witness :
  FloatOrder Q ∧
  sweep_init islands_queries islands_uvs islands_tris [] []
    = Ok (islands_env, islands_start) ∧
  skip islands_env !! 1 = Some false ∧
  false = false.
Proof.
  assert (sweep_init islands_queries islands_uvs islands_tris [] []
            = Ok (islands_env, islands_start)) as Hinit
    by (vm_compute; reflexivity).
  assert (skip islands_env !! 1 = Some false) as Hb by reflexivity.
  split; [exact Q_float_order|]. split; [exact Hinit|]. split; [exact Hb|].
  exact (sweep_init_skips_nothing (H0 := Q_float_order) islands_queries
           islands_uvs islands_tris [] [] islands_env islands_start 1 false
           Hinit Hb).
Defined.

Lemma run_returns_xmin_exhausted_witness :
  FloatOrder Q ∧
  sweep_init islands_queries islands_uvs islands_tris [] []
    = Ok (islands_env, islands_start) ∧
  run pointInTri_exact (Some 11%Q) islands_queries islands_uvs islands_tris
    20 islands_env islands_start = Returned islands_end ∧
  mnSIdx islands_end = numTris islands_tris.
Proof.
  assert (sweep_init islands_queries islands_uvs islands_tris [] []
            = Ok (islands_env, islands_start)) as Hinit
    by (vm_compute; reflexivity).
  assert (run pointInTri_exact (Some 11%Q) islands_queries islands_uvs
            islands_tris 20 islands_env islands_start = Returned islands_end)
    as Hrun by (vm_compute; reflexivity).
  split; [exact Q_float_order|]. split; [exact Hinit|]. split; [exact Hrun|].
  exact (run_returns_xmin_exhausted (H0 := Q_float_order) pointInTri_exact
           (Some 11%Q) islands_queries islands_uvs islands_tris [] []
           islands_env islands_start 20 islands_end Hinit Hrun).
Defined.

Lemma sweep_tests_per_vertex_witness :
  sweep_init islands_queries islands_uvs islands_tris [] []
    = Ok (islands_env, islands_start) ∧
  run pointInTri_exact (Some 11%Q) islands_queries islands_uvs islands_tris
    (sweep_fuel islands_uvs islands_tris) islands_env islands_start
    = Returned islands_end ∧
  qpx islands_env = fst <$> islands_uvs ∧
  qpSIdx islands_end = length islands_uvs.
Proof.
  assert (sweep_init islands_queries islands_uvs islands_tris [] []
            = Ok (islands_env, islands_start)) as Hinit
    by (vm_compute; reflexivity).
  assert (run pointInTri_exact (Some 11%Q) islands_queries islands_uvs
            islands_tris (sweep_fuel islands_uvs islands_tris) islands_env
            islands_start = Returned islands_end)
    as Hrun by (vm_compute; reflexivity).
  split; [exact Hinit|]. split; [exact Hrun|].
  exact (sweep_tests_per_vertex pointInTri_exact (Some 11%Q) islands_queries
           islands_uvs islands_tris [] [] islands_env islands_start islands_end
           Hinit Hrun).
Defined.


Lemma sweep_missing_in_sweep_order_witness :
  sweep pointInTri_exact (Some 11%Q) islands_queries islands_uvs islands_tris
    [] [] []
    = Returned ([0; 0; 0; 1; 1; 1], [0; 0; 0; 0; 0; 0; 0; 2; 1], []) ∧
  drop (length islands_queries) [0; 0; 0; 0; 0; 0; 0; 2; 1]
    `sublist_of` argsort flt (fst <$> islands_uvs) ∧
  NoDup (drop (length islands_queries) [0; 0; 0; 0; 0; 0; 0; 2; 1]).
Proof.
  assert (sweep pointInTri_exact (Some 11%Q) islands_queries islands_uvs
            islands_tris [] [] []
          = Returned ([0; 0; 0; 1; 1; 1], [0; 0; 0; 0; 0; 0; 0; 2; 1], []))
    as Hrun by (vm_compute; reflexivity).
  split; [exact Hrun|].
  exact (sweep_missing_in_sweep_order pointInTri_exact (Some 11%Q)
           islands_queries islands_uvs islands_tris [] [] [] _ _ _ Hrun).
Defined.

Lemma sweep_ignores_late_queries_witness :
  sweep pointInTri_exact (Some 4%Q) late_queries one_tri_uvs one_tri [] [] []
    = Returned ([0; 0; 0; 0], [0; 0; 0; 0; 1], []) ∧
  ∀ i, length one_tri_uvs ≤ i →
    [0; 0; 0; 0] !! i = resize (length late_queries) 0 [] !! i ∧
    i ∉ drop (length late_queries) [0; 0; 0; 0; 1].
Proof.
  assert (sweep pointInTri_exact (Some 4%Q) late_queries one_tri_uvs one_tri
            [] [] [] = Returned ([0; 0; 0; 0], [0; 0; 0; 0; 1], [])) as Hrun
    by (vm_compute; reflexivity).
  split; [exact Hrun|].
  exact (sweep_ignores_late_queries pointInTri_exact (Some 4%Q)
           late_queries one_tri_uvs one_tri [] [] [] _ _ _ Hrun).
Defined.

Lemma sweep_missing_prefilled_witness :
  sweep pointInTri_exact (Some 4%Q) late_queries one_tri_uvs one_tri
    [] [7; 8] []
    = Returned ([0; 0; 0; 0], [7; 8; 0; 0; 1], []) ∧
  take (length late_queries) [7; 8; 0; 0; 1]
    = resize (length late_queries) 0 [7; 8].
Proof.
  assert (sweep pointInTri_exact (Some 4%Q) late_queries one_tri_uvs one_tri
            [] [7; 8] [] = Returned ([0; 0; 0; 0], [7; 8; 0; 0; 1], []))
    as Hrun by (vm_compute; reflexivity).
  split; [exact Hrun|].
  exact (sweep_missing_prefilled pointInTri_exact (Some 4%Q)
           late_queries one_tri_uvs one_tri [] [7; 8] [] _ _ _ Hrun).
Defined.

Lemma sweep_returns_needs_load_witness :
  FloatOrder Q ∧
  (N.of_nat (numTris one_tri) < 2 ^ 64)%N ∧
  sweep pointInTri_exact (Some 4%Q) late_queries one_tri_uvs one_tri [] [] []
    = Returned ([0; 0; 0; 0], [0; 0; 0; 0; 1], []) ∧
  ∃ w, Some 4%Q = Some w.
Proof.
  assert ((N.of_nat (numTris one_tri) < 2 ^ 64)%N) as Hlen by (vm_compute; reflexivity).
  assert (sweep pointInTri_exact (Some 4%Q) late_queries one_tri_uvs one_tri
            [] [] [] = Returned ([0; 0; 0; 0], [0; 0; 0; 0; 1], [])) as Hrun
    by (vm_compute; reflexivity).
  split; [exact Q_float_order|]. split; [exact Hlen|]. split; [exact Hrun|].
  exact (sweep_returns_needs_load (H0 := Q_float_order) pointInTri_exact
           (Some 4%Q) late_queries one_tri_uvs one_tri [] [] [] _ Hlen Hrun).
Defined.

Lemma sweep_returns_rightmost_is_corner_witness :
  FloatOrder Q ∧
  sweep pointInTri_exact (Some 4%Q) late_queries one_tri_uvs one_tri [] [] []
    = Returned ([0; 0; 0; 0], [0; 0; 0; 0; 1], []) ∧
  ∃ k j q, one_tri !! k = Some j ∧ one_tri_uvs !! j = Some q ∧
           ∀ p, p ∈ one_tri_uvs → fle p.1 q.1 = true.
Proof.
  assert (sweep pointInTri_exact (Some 4%Q) late_queries one_tri_uvs one_tri
            [] [] [] = Returned ([0; 0; 0; 0], [0; 0; 0; 0; 1], [])) as Hrun
    by (vm_compute; reflexivity).
  split; [exact Q_float_order|]. split; [exact Hrun|].
  exact (sweep_returns_rightmost_is_corner (H0 := Q_float_order)
           pointInTri_exact (Some 4%Q) late_queries one_tri_uvs one_tri
           [] [] [] _ Hrun).
Defined.

Lemma closest_scan_first_minimum_witness :
  FloatOrder Q ∧
  length edges_dirs = length edges_starts ∧
  length edges_divisors = length edges_starts ∧
  ∃ i v, closest_scan edges_starts edges_dirs edges_divisors (Qpt 2 1)
           = Ok (i, v) ∧
    closestBruteForceEdge edges_starts edges_dirs edges_divisors (Qpt 2 1)
      = Ok i ∧
    (∀ j x, l2_at edges_starts edges_dirs edges_divisors (Qpt 2 1) j = Some x →
       fle v x = true) ∧
    ((i = 0 ∧ v = fdbl_max ∧
      ∀ j x, l2_at edges_starts edges_dirs edges_divisors (Qpt 2 1) j = Some x →
        flt x fdbl_max = false) ∨
     (l2_at edges_starts edges_dirs edges_divisors (Qpt 2 1) i = Some v ∧
      ∀ j x, j < i →
        l2_at edges_starts edges_dirs edges_divisors (Qpt 2 1) j = Some x →
        flt v x = true)).
Proof.
  assert (length edges_dirs = length edges_starts) as Hd by reflexivity.
  assert (length edges_divisors = length edges_starts) as Hr by reflexivity.
  split; [exact Q_float_order|]. split; [exact Hd|]. split; [exact Hr|].
  exact (closest_scan_first_minimum (H0 := Q_float_order) edges_starts
           edges_dirs edges_divisors (Qpt 2 1) Hd Hr).
Defined.

Lemma handleMissing_entries_witness :
  handleMissing edges_uvs edges_borders [4; 0] [7; 8] [0; 0; 0; 0; 0]
    = Ok [7; 0; 0; 0; 8] ∧
  length [7; 0; 0; 0; 8] = length [0; 0; 0; 0; 0] ∧
  (∀ m, m ∈ [4; 0] →
     ∃ t, nearest_triangle edges_uvs edges_borders [7; 8] m = Ok t ∧
          [7; 0; 0; 0; 8] !! m = Some t) ∧
  (∀ i, i ∉ [4; 0] → [7; 0; 0; 0; 8] !! i = [0; 0; 0; 0; 0] !! i).
Proof.
  assert (handleMissing edges_uvs edges_borders [4; 0] [7; 8] [0; 0; 0; 0; 0]
          = Ok [7; 0; 0; 0; 8]) as Hh by (vm_compute; reflexivity).
  split; [exact Hh|].
  exact (handleMissing_entries edges_uvs edges_borders [7; 8] [4; 0]
           [0; 0; 0; 0; 0] [7; 0; 0; 0; 8] Hh).
Defined.

Lemma handleMissing_same_elements_witness :
  (∀ m, m ∈ [4; 0] ↔ m ∈ [0; 4; 4]) ∧
  handleMissing edges_uvs edges_borders [4; 0] [7; 8] [0; 0; 0; 0; 0]
    = Ok [7; 0; 0; 0; 8] ∧
  handleMissing edges_uvs edges_borders [0; 4; 4] [7; 8] [0; 0; 0; 0; 0]
    = Ok [7; 0; 0; 0; 8].
Proof.
  assert (∀ m, m ∈ [4; 0] ↔ m ∈ [0; 4; 4]) as Hsame.
  { intros m. rewrite !elem_of_cons. pose proof (not_elem_of_nil m). tauto. }
  assert (handleMissing edges_uvs edges_borders [4; 0] [7; 8] [0; 0; 0; 0; 0]
          = Ok [7; 0; 0; 0; 8]) as Hh by (vm_compute; reflexivity).
  split; [exact Hsame|]. split; [exact Hh|].
  exact (handleMissing_same_elements edges_uvs edges_borders [7; 8] [4; 0]
           [0; 4; 4] [0; 0; 0; 0; 0] [7; 0; 0; 0; 8] Hsame Hh).
Defined.

Lemma handleMissing_idempotent_witness :
  handleMissing edges_uvs edges_borders [4; 0] [7; 8] [0; 0; 0; 0; 0]
    = Ok [7; 0; 0; 0; 8] ∧
  handleMissing edges_uvs edges_borders [4; 0] [7; 8] [7; 0; 0; 0; 8]
    = Ok [7; 0; 0; 0; 8].
Proof.
  assert (handleMissing edges_uvs edges_borders [4; 0] [7; 8] [0; 0; 0; 0; 0]
          = Ok [7; 0; 0; 0; 8]) as Hh by (vm_compute; reflexivity).
  split; [exact Hh|].
  exact (handleMissing_idempotent edges_uvs edges_borders [7; 8] [4; 0]
           [0; 0; 0; 0; 0] [7; 0; 0; 0; 8] Hh).
Defined.

Lemma handleMissing_no_borders_witness :
  [7; 8] !! 0 = Some 7 ∧
  Forall (λ m, m < length edges_uvs ∧ m < length [0; 0; 0; 0; 0]) [4; 0] ∧
  ∃ triIdxs',
    handleMissing edges_uvs [] [4; 0] [7; 8] [0; 0; 0; 0; 0] = Ok triIdxs' ∧
    (∀ m, m ∈ [4; 0] → triIdxs' !! m = Some 7) ∧
    (∀ i, i ∉ [4; 0] → triIdxs' !! i = [0; 0; 0; 0; 0] !! i).
Proof.
  assert ([7; 8] !! 0 = Some 7) as Ht by reflexivity.
  assert (Forall (λ m, m < length edges_uvs ∧ m < length [0; 0; 0; 0; 0])
            [4; 0]) as Hm by (repeat constructor; simpl; lia).
  split; [exact Ht|]. split; [exact Hm|].
  exact (handleMissing_no_borders edges_uvs [4; 0] [7; 8] [0; 0; 0; 0; 0] 7
           Ht Hm).
Defined.

Lemma Q_sub_self (x : Q) : fsub x x = fzero.
Proof.
  simpl. rewrite (Qred_complete (x - x) 0); [done|]. apply Qplus_opp_r.
Qed.

Lemma border_row_diagonal_witness :
  (∀ x : Q, fsub x x = fzero) ∧
  fmul (fzero : Q) fzero = fzero ∧
  border_row diagonal_uvs (0, 1) = Ok (Qpt 0 0, Qpt 2 2, 0%Q) ∧
  (Qpt 2 2).1 = (Qpt 2 2).2 ∧
  0%Q = fzero.
Proof.
  assert (fmul (fzero : Q) fzero = fzero) as Hmul by reflexivity.
  assert (border_row diagonal_uvs (0, 1) = Ok (Qpt 0 0, Qpt 2 2, 0%Q)) as Hb
    by (vm_compute; reflexivity).
  assert ((Qpt 2 2).1 = (Qpt 2 2).2) as Hd by reflexivity.
  split; [exact Q_sub_self|]. split; [exact Hmul|]. split; [exact Hb|].
  split; [exact Hd|].
  exact (border_row_diagonal diagonal_uvs (0, 1) (Qpt 0 0) (Qpt 2 2) 0%Q
           Q_sub_self Hmul Hb Hd).
Defined.

Lemma xmax_cursor_overrun_witness :
  choose far_before = Deactivate ∧
  deactivate far_env far_before = Ok far_after ∧
  S (mxSIdx far_before) = length (mxSIdxs far_env) ∧
  step pointInTri_exact (Some 4%Q) far_queries far_uvs one_tri far_env far_after
    = Err OobXmaxCursor.
Proof.
  assert (choose far_before = Deactivate) as Hch by reflexivity.
  assert (deactivate far_env far_before = Ok far_after) as Hs
    by (vm_compute; reflexivity).
  assert (S (mxSIdx far_before) = length (mxSIdxs far_env)) as Hlast
    by reflexivity.
  split; [exact Hch|]. split; [exact Hs|]. split; [exact Hlast|].
  exact (xmax_cursor_overrun pointInTri_exact (Some 4%Q) far_queries far_uvs
           one_tri far_env far_before far_after Hch Hs Hlast).
Defined.
